(** * sivafs: a filesystem view over a siva archive

    A shallow embedding of [filesystem.go] of go-billy-siva (the version
    with the [fileWriteModeOpen] flag) and of the parts of its
    collaborators that the code calls: Go's [path], [path/filepath],
    [strings] and [unicode/utf8] functions, and go-siva's index and
    writer.

    Go strings are byte sequences: they are modelled as [list ascii].
    Open flags are machine integers, modelled as [Z] with [Z.land]. *)

From Stdlib Require Import ZArith Ascii String List Lia Bool.
From stdpp Require Import base decidable option list gmap strings.

Local Open Scope Z_scope.
Local Open Scope list_scope.

(** ** Go strings *)

Abbreviation gostring := (list ascii).

(** [str "a/b"] is the Go string literal ["a/b"]. *)
Definition str (s : string) : gostring := list_ascii_of_string s.

Definition Separator : ascii := "/"%char.

Definition is_sep (c : ascii) : bool := bool_decide (c = Separator).

(** [strings.Contains(name, "/")]. *)
Definition contains_sep (s : gostring) : bool := existsb is_sep s.

(** [strings.HasPrefix(s, "/")] and [strings.HasSuffix(s, "/")]. *)
Definition HasPrefixSlash (s : gostring) : bool :=
  match s with
  | c :: _ => is_sep c
  | [] => false
  end.

Definition HasSuffixSlash (s : gostring) : bool :=
  match last s with
  | Some c => is_sep c
  | None => false
  end.

(** ** Errors *)

Inductive Errno := ENOTDIR | ENOTEMPTY.

Inductive error :=
  | ErrNonSeekableFile
  | ErrAlreadyClosed
  | ErrFileWriteModeAlreadyOpen
  | ErrReadOnlyFile
  | ErrWriteOnlyFile
  | ErrNotSupported                    (* billy.ErrNotSupported *)
  | ErrNotExist                        (* os.ErrNotExist *)
  | PathError (op : string) (path : gostring) (errno : Errno)  (* *os.PathError *)
  | ErrBadPattern                      (* filepath.ErrBadPattern *)
  | ErrClosedWriter                    (* siva.ErrClosedWriter *)
  | ErrMissingHeader                   (* siva.ErrMissingHeader *)
  | IOError (code : nat).              (* an error of the backing store *)

Inductive result (A : Type) :=
  | Ok (a : A)
  | Err (e : error).
Arguments Ok {A} a.
Arguments Err {A} e.

Global Instance Errno_eq_dec : EqDecision Errno.
Proof. solve_decision. Defined.
Global Instance error_eq_dec : EqDecision error.
Proof. solve_decision. Defined.

(** ** Package path: Clean, Join, Dir

    Go's [path] and [path/filepath] are libraries outside the repository.
    [Clean] follows the rules of its documentation, applied to the
    slash-separated elements of the path: multiple slashes and [.]
    elements are dropped, an inner [..] removes the element before it, and
    a [..] at the root is dropped.  On a system with the separator [/] the
    two packages agree. *)

Module path.

(** [strings.Split(s, "/")]. *)
Fixpoint split_sep (s : gostring) : list gostring :=
  match s with
  | [] => [[]]
  | c :: s' =>
      if is_sep c then [] :: split_sep s'
      else match split_sep s' with
           | seg :: rest => (c :: seg) :: rest
           | [] => [[c]]
           end
  end.

(** [strings.Join(elems, "/")]. *)
Fixpoint join_sep (elems : list gostring) : gostring :=
  match elems with
  | [] => []
  | [e] => e
  | e :: es => e ++ Separator :: join_sep es
  end.

Definition dot : gostring := ["."%char].
Definition dotdot : gostring := ["."%char; "."%char].

(** The elements kept by [Clean], innermost first in [stack].  An empty
    element and [.] are dropped; [..] removes the element before it, is
    dropped at the root, and is kept at the start of a relative path. *)
Fixpoint clean_elems (rooted : bool) (stack elems : list gostring)
  : list gostring :=
  match elems with
  | [] => rev stack
  | e :: es =>
      if bool_decide (e = []) || bool_decide (e = dot)
      then clean_elems rooted stack es
      else if bool_decide (e = dotdot) then
        match stack with
        | top :: stack' =>
            if bool_decide (top = dotdot)
            then clean_elems rooted (e :: stack) es
            else clean_elems rooted stack' es
        | [] =>
            if rooted then clean_elems rooted [] es
            else clean_elems rooted [e] es
        end
      else clean_elems rooted (e :: stack) es
  end.

Definition Clean (path : gostring) : gostring :=
  match path with
  | [] => dot
  | _ =>
      let rooted := HasPrefixSlash path in
      let out := join_sep (clean_elems rooted [] (split_sep path)) in
      if rooted then Separator :: out
      else match out with
           | [] => dot
           | _ => out
           end
  end.

(** [path.Join] and [filepath.Join]: the elements from the first non-empty
    one on are joined with slashes and cleaned. *)
Fixpoint Join (elem : list gostring) : gostring :=
  match elem with
  | [] => []
  | [] :: rest => Join rest
  | _ :: _ => Clean (join_sep elem)
  end.

End path.

Import path.

(** ** Package unicode/utf8 *)

Module utf8.

Definition RuneError : N := 65533.

(** The byte [c] lies between [lo] and [hi]. *)
Definition between (lo hi : N) (c : ascii) : bool :=
  ((lo <=? N_of_ascii c) && (N_of_ascii c <=? hi))%N.

(** The six bits that a continuation byte carries. *)
Definition cont (c : ascii) : N := N.land (N_of_ascii c) 63.

(** [utf8.DecodeRuneInString]: the first rune of [s] and its width in
    bytes; [(RuneError, 1)] for an encoding that is not valid, and
    [(RuneError, 0)] for the empty string.  The first byte gives the
    width and the range of the second byte. *)
Definition DecodeRuneInString (s : gostring) : N * nat :=
  match s with
  | [] => (RuneError, 0%nat)
  | c0 :: rest =>
      let s0 := N_of_ascii c0 in
      if (s0 <? 128)%N then (s0, 1%nat)
      else if (s0 <? 194)%N then (RuneError, 1%nat)
      else if (s0 <? 224)%N then
        match rest with
        | c1 :: _ =>
            if between 128 191 c1
            then (N.lor (N.shiftl (N.land s0 31) 6) (cont c1), 2%nat)
            else (RuneError, 1%nat)
        | _ => (RuneError, 1%nat)
        end
      else if (s0 <? 240)%N then
        let lo := if (s0 =? 224)%N then 160%N else 128%N in
        let hi := if (s0 =? 237)%N then 159%N else 191%N in
        match rest with
        | c1 :: c2 :: _ =>
            if between lo hi c1 && between 128 191 c2
            then (N.lor (N.shiftl (N.land s0 15) 12)
                    (N.lor (N.shiftl (cont c1) 6) (cont c2)), 3%nat)
            else (RuneError, 1%nat)
        | _ => (RuneError, 1%nat)
        end
      else if (s0 <? 245)%N then
        let lo := if (s0 =? 240)%N then 144%N else 128%N in
        let hi := if (s0 =? 244)%N then 143%N else 191%N in
        match rest with
        | c1 :: c2 :: c3 :: _ =>
            if between lo hi c1 && between 128 191 c2 && between 128 191 c3
            then (N.lor (N.shiftl (N.land s0 7) 18)
                    (N.lor (N.shiftl (cont c1) 12)
                       (N.lor (N.shiftl (cont c2) 6) (cont c3))), 4%nat)
            else (RuneError, 1%nat)
        | _ => (RuneError, 1%nat)
        end
      else (RuneError, 1%nat)
  end.

End utf8.

Import utf8.

(** ** Package path/filepath: Dir and Match *)

Module filepath.

(** [filepath.Join] is [path.Join]. *)
Abbreviation Join := path.Join.

(** [path[:i+1]] for the last separator at index [i]; empty without one. *)
Fixpoint upto_last_sep (path : gostring) : gostring :=
  match path with
  | [] => []
  | c :: rest =>
      if contains_sep path then c :: upto_last_sep rest else []
  end.

(** [filepath.Dir] on a system without volume names. *)
Definition Dir (path : gostring) : gostring := Clean (upto_last_sep path).

(** The pattern syntax of [filepath.Match], as go-siva's [Index.Glob] uses
    it on entry names: [*] matches any sequence of non-separator
    characters, [?] one non-separator character, [[...]] a character
    class, and a backslash quotes the next character.  A literal is
    compared byte by byte; [?] and a class read one UTF-8 rune of the
    name. *)

(** The chunk scan of [scanChunk], after the leading stars: the chunk runs
    to the first star outside a class. *)
Fixpoint scanLiteral (inrange : bool) (pattern : gostring)
  : gostring * gostring :=
  match pattern with
  | [] => ([], [])
  | c :: rest =>
      let keep (r : gostring * gostring) := (c :: fst r, snd r) in
      if bool_decide (c = "\"%char) then
        match rest with
        | d :: rest' =>
            let r := scanLiteral inrange rest' in (c :: d :: fst r, snd r)
        | [] => ([c], [])
        end
      else if bool_decide (c = "["%char) then keep (scanLiteral true rest)
      else if bool_decide (c = "]"%char) then keep (scanLiteral false rest)
      else if bool_decide (c = "*"%char) then
        if inrange then keep (scanLiteral inrange rest) else ([], pattern)
      else keep (scanLiteral inrange rest)
  end.

Fixpoint dropStars (pattern : gostring) : bool * gostring :=
  match pattern with
  | c :: rest =>
      if bool_decide (c = "*"%char) then (true, snd (dropStars rest))
      else (false, pattern)
  | [] => (false, [])
  end.

(** [scanChunk]: (star, chunk, rest). *)
Definition scanChunk (pattern : gostring) : bool * gostring * gostring :=
  let '(star, pattern) := dropStars pattern in
  let '(chunk, rest) := scanLiteral false pattern in
  (star, chunk, rest).

(** [getEsc]: one possibly quoted rune of a class. *)
Definition getEsc (chunk : gostring) : result (N * gostring) :=
  match chunk with
  | [] => Err ErrBadPattern
  | c :: rest =>
      if bool_decide (c = "-"%char) || bool_decide (c = "]"%char)
      then Err ErrBadPattern
      else
        let chunk := if bool_decide (c = "\"%char) then rest else chunk in
        match chunk with
        | [] => Err ErrBadPattern
        | _ :: _ =>
            let '(r, n) := DecodeRuneInString chunk in
            if (r =? RuneError)%N && (n =? 1)%nat then Err ErrBadPattern
            else
              match drop n chunk with
              | [] => Err ErrBadPattern
              | nchunk => Ok (r, nchunk)
              end
        end
  end.

Definition rune_le (a b : N) : bool := (a <=? b)%N.

(** The range loop of a character class.  [r] is the rune read from
    the name ([None] once the match has failed); the result is whether
    some range holds [r], and the chunk after the closing bracket. *)
Fixpoint classRanges (fuel : nat) (chunk : gostring) (r : option N)
    (matched : bool) (nrange : nat) : option (result (bool * gostring)) :=
  match fuel with
  | O => None
  | S fuel =>
      match chunk, nrange with
      | c :: rest, S _ =>
          if bool_decide (c = "]"%char) then Some (Ok (matched, rest))
          else classRange fuel chunk r matched nrange
      | _, _ => classRange fuel chunk r matched nrange
      end
  end
with classRange (fuel : nat) (chunk : gostring) (r : option N)
    (matched : bool) (nrange : nat) : option (result (bool * gostring)) :=
  match fuel with
  | O => None
  | S fuel =>
      match getEsc chunk with
      | Err e => Some (Err e)
      | Ok (lo, chunk) =>
          let bounds :=
            match chunk with
            | c :: rest =>
                if bool_decide (c = "-"%char) then
                  match getEsc rest with
                  | Err e => Err e
                  | Ok (hi, chunk) => Ok (hi, chunk)
                  end
                else Ok (lo, chunk)
            | [] => Ok (lo, chunk)
            end in
          match bounds with
          | Err e => Some (Err e)
          | Ok (hi, chunk) =>
              let inside :=
                match r with
                | Some r => rune_le lo r && rune_le r hi
                | None => false
                end in
              classRanges fuel chunk r (matched || inside) (S nrange)
          end
      end
  end.

Inductive chunkResult :=
  | ChunkRest (rest : gostring)    (* ok: the name after the match *)
  | ChunkFail                      (* no match, the chunk is well formed *)
  | ChunkBad.                      (* ErrBadPattern *)

(** [matchChunk]: [s] is the rest of the name, [None] once the match has
    failed and the chunk is only checked for its syntax. *)
Fixpoint matchChunkFrom (fuel : nat) (chunk : gostring) (s : option gostring)
  : option chunkResult :=
  match fuel with
  | O => None
  | S fuel =>
      match chunk with
      | [] =>
          match s with
          | Some s => Some (ChunkRest s)
          | None => Some ChunkFail
          end
      | c :: chunk' =>
          let s := match s with Some [] => None | _ => s end in
          if bool_decide (c = "["%char) then
            let r :=
              match s with
              | Some s => Some (fst (DecodeRuneInString s))
              | None => None
              end in
            let s :=
              match s with
              | Some s => Some (drop (snd (DecodeRuneInString s)) s)
              | None => None
              end in
            let '(negated, chunk') :=
              match chunk' with
              | n :: chunk'' =>
                  if bool_decide (n = "^"%char) then (true, chunk'')
                  else (false, chunk')
              | [] => (false, chunk')
              end in
            match classRanges (2 * length chunk' + 2) chunk' r false 0 with
            | None => None
            | Some (Err _) => Some ChunkBad
            | Some (Ok (matched, chunk')) =>
                let s := if Bool.eqb matched negated then None else s in
                matchChunkFrom fuel chunk' s
            end
          else if bool_decide (c = "?"%char) then
            let s :=
              match s with
              | Some (x :: s') =>
                  if is_sep x then None
                  else Some (drop (snd (DecodeRuneInString (x :: s'))) (x :: s'))
              | _ => None
              end in
            matchChunkFrom fuel chunk' s
          else
            let literal (c : ascii) (chunk' : gostring) :=
              let s :=
                match s with
                | Some (x :: s') =>
                    if bool_decide (c = x) then Some s' else None
                | _ => None
                end in
              matchChunkFrom fuel chunk' s in
            if bool_decide (c = "\"%char) then
              match chunk' with
              | [] => Some ChunkBad
              | q :: chunk'' => literal q chunk''
              end
            else literal c chunk'
      end
  end.

Definition matchChunk (chunk s : gostring) : chunkResult :=
  match matchChunkFrom (S (length chunk)) chunk (Some s) with
  | Some r => r
  | None => ChunkBad
  end.

(** The loop of [Match] that skips characters of the name for a star: it
    cannot skip a separator. *)
Fixpoint starSkip (chunk pattern name : gostring) : result (option gostring) :=
  match name with
  | [] => Ok None
  | c :: name' =>
      if is_sep c then Ok None
      else match matchChunk chunk name' with
           | ChunkRest t =>
               match pattern, t with
               | [], _ :: _ => starSkip chunk pattern name'
               | _, _ => Ok (Some t)
               end
           | ChunkBad => Err ErrBadPattern
           | ChunkFail => starSkip chunk pattern name'
           end
  end.

(** [Match]: chunk after chunk; once a chunk has failed, also after the
    skips that a star allows, the answer is false and the rest of the
    pattern is not read. *)
Fixpoint MatchFrom (fuel : nat) (pattern name : gostring)
  : option (result bool) :=
  match fuel with
  | O => None
  | S fuel =>
      match pattern with
      | [] => Some (Ok (bool_decide (name = [])))
      | _ =>
          let '(star, chunk, pattern) := scanChunk pattern in
          match star, chunk with
          | true, [] => Some (Ok (negb (contains_sep name)))
          | _, _ =>
              let skip :=
                if star then
                  match starSkip chunk pattern name with
                  | Err e => Some (Err e)
                  | Ok (Some t) => MatchFrom fuel pattern t
                  | Ok None => Some (Ok false)
                  end
                else Some (Ok false) in
              match matchChunk chunk name with
              | ChunkRest t =>
                  match t, pattern with
                  | _ :: _, [] => skip
                  | _, _ => MatchFrom fuel pattern t
                  end
              | ChunkBad => Some (Err ErrBadPattern)
              | ChunkFail => skip
              end
          end
      end
  end.

(** [filepath.Match(pattern, name)]. *)
Definition Match (pattern name : gostring) : result bool :=
  match MatchFrom (S (length pattern)) pattern name with
  | Some r => r
  | None => Err ErrBadPattern
  end.

End filepath.

Import filepath.

(** ** Package time

    A [time.Time] is a number of nanoseconds counted from the zero
    [Time]. *)

Module time.

Definition Time := Z.
Definition zeroTime : Time := 0.
Definition Before (t u : Time) : bool := t <? u.

End time.

Import time.

(** ** Package siva: headers, the index and the writer

    An index entry is its header: the position, size and checksum of the
    payload are not modelled. *)

Module siva.

Definition FlagDeleted : Z := 1.

Record Header := {
  Name : gostring;
  ModTime : Time;
  Mode : Z;
  Flags : Z
}.

Definition IndexEntry := Header.
Definition Index := list IndexEntry.

Global Instance Header_eq_dec : EqDecision Header.
Proof. solve_decision. Defined.

Definition deleted (e : IndexEntry) : bool :=
  negb (Z.land (Flags e) FlagDeleted =? 0).

(** The loop of [Index.Filter]: the index is walked from its last entry to
    its first; the latest entry of each name is kept unless it is a
    tombstone. *)
Fixpoint filterSeen (seen : gset gostring) (i : list IndexEntry) : Index :=
  match i with
  | [] => []
  | e :: rest =>
      if bool_decide (Name e ∈ seen) then filterSeen seen rest
      else if deleted e then filterSeen ({[Name e]} ∪ seen) rest
      else e :: filterSeen ({[Name e]} ∪ seen) rest
  end.

(** [Index.Filter]: the kept entries are sorted by their position in the
    archive.  The index lists the entries by position, those read from
    the archive and then those of the writer, so the sort puts the kept
    entries back in the order of the index.  Positions are not modelled:
    an entry without content has the position of its successor, and the
    order of two such entries is not told by this definition. *)
Definition Filter (i : Index) : Index := rev (filterSeen ∅ (rev i)).

(** [Index.Find]: the first entry of that name. *)
Fixpoint Find (i : Index) (name : gostring) : option IndexEntry :=
  match i with
  | [] => None
  | e :: rest => if bool_decide (Name e = name) then Some e else Find rest name
  end.

(** [Index.Glob]: the entries whose name matches the pattern, in index
    order; the first error of [filepath.Match] ends the search. *)
Fixpoint Glob (i : Index) (pattern : gostring) : result (list IndexEntry) :=
  match i with
  | [] => Ok []
  | e :: rest =>
      match Match pattern (Name e) with
      | Err err => Err err
      | Ok m =>
          match Glob rest pattern with
          | Err err => Err err
          | Ok matches => Ok (if m then e :: matches else matches)
          end
      end
  end.

(** [siva.ReadWriter]: the entries read when the archive was opened, the
    entries this writer appended, whether the writer has a current entry
    ([w.current != nil]: a header was written), and whether the writer
    was closed. *)
Record ReadWriter := {
  base : Index;
  written : Index;
  current : bool;
  closed : bool
}.

(** [writer.Flush]: it finishes the current entry and keeps it, so that a
    second [Flush] succeeds as well; without a current entry there is
    nothing to finish. *)
Definition rw_Flush (w : ReadWriter) : option error * ReadWriter :=
  if closed w then (Some ErrClosedWriter, w)
  else if current w then (None, w)
  else (Some ErrMissingHeader, w).

(** [writer.WriteHeader]: the current entry is flushed, then the header
    is appended to the index and becomes the current entry. *)
Definition rw_WriteHeader (w : ReadWriter) (h : Header)
  : option error * ReadWriter :=
  if closed w then (Some ErrClosedWriter, w)
  else
    (None, {| base := base w; written := written w ++ [h];
              current := true; closed := closed w |}).

End siva.

Import siva.

(** ** The backing byte store *)

(** The backing byte store, as far as [fs.path] shows it: the entries the
    archive file holds, and whether its operations fail. *)
Record Backing := {
  archive : Index;
  open_fault : option error;      (* underlying.OpenFile *)
  read_fault : option error;      (* reading the archive: siva.NewReaderWriter *)
  index_fault : option error;     (* rw.Index *)
  get_fault : option error;       (* rw.Get *)
  write_fault : option error;     (* writing the index block: rw.Close *)
  close_fault : option error      (* f.Close *)
}.

(** The reader and writer on the archive file. *)

Definition NewReaderWriter (b : Backing) : result ReadWriter :=
  match read_fault b with
  | Some err => Err err
  | None =>
      Ok {| base := archive b; written := []; current := false; closed := false |}
  end.

Definition rw_Index (b : Backing) (w : ReadWriter) : result Index :=
  match index_fault b with
  | Some err => Err err
  | None => Ok (base w ++ written w)
  end.

(** [writer.Close]: the writer counts as closed afterwards, whatever is
    returned.  The index block that is written holds the entries this
    writer appended and follows the blocks of the archive; a writer that
    appended no entry writes nothing and returns nil. *)
Definition rw_Close (b : Backing) (w : ReadWriter)
  : option error * ReadWriter * Backing :=
  let w' := {| base := base w; written := written w;
               current := current w; closed := true |} in
  if closed w then (Some ErrClosedWriter, w, b)
  else
    match written w with
    | [] => (None, w', b)
    | _ :: _ =>
        match write_fault b with
        | Some err => (Some err, w', b)
        | None =>
            (None, w',
             {| archive := archive b ++ written w;
                open_fault := open_fault b; read_fault := read_fault b;
                index_fault := index_fault b; get_fault := get_fault b;
                write_fault := write_fault b; close_fault := close_fault b |})
        end
    end.

(** ** Package os: open flags (linux) *)

Module os.

Definition O_RDONLY : Z := 0.
Definition O_WRONLY : Z := 1.
Definition O_RDWR : Z := 2.
Definition O_CREATE : Z := 64.
Definition O_TRUNC : Z := 512.
Definition O_APPEND : Z := 1024.

End os.

Import os.

(** [flag&bit != 0]. *)
Definition has (flag bit : Z) : bool := negb (Z.land flag bit =? 0).

(** ** File infos and file handles *)

(** Modelled from the spec: [newFileInfo] and [newDirFileInfo] are declared
    in a file of the repository that is not among the sources.  A file
    info is built from an entry; a Synthetic Directory has a [path] and a
    [modTime]. *)
Inductive FileInfo :=
  | newFileInfo (e : IndexEntry)
  | newDirFileInfo (name : gostring) (modTime : Time).

Definition IsDir (fi : FileInfo) : bool :=
  match fi with
  | newFileInfo _ => false
  | newDirFileInfo _ _ => true
  end.

(** Modelled from the spec: [newFile] and [openFile], the File Handle
    Facade, are declared in a file of the repository that is not among the
    sources.  A write handle keeps the close function that [createFile]
    builds, which captures the open flags; a read handle is bound to its
    entry. *)
Inductive handleKind :=
  | WriteHandle (flag : Z)
  | ReadHandle (e : IndexEntry).

Record file := {
  Filename : gostring;
  kind : handleKind;
  isClosed : bool
}.

(** ** The filesystem *)

Record billyFile := { opened_at : gostring }.

Record sivaFS := {
  underlying : Backing;
  path : gostring;
  f : option billyFile;
  rw : option ReadWriter;
  fileWriteModeOpen : bool
}.

Definition New (fs : Backing) (path : gostring) : sivaFS :=
  {| underlying := fs; path := path; f := None; rw := None;
     fileWriteModeOpen := false |}.

Definition set_rw (fs : sivaFS) (w : option ReadWriter) : sivaFS :=
  {| underlying := underlying fs; path := path fs; f := f fs; rw := w;
     fileWriteModeOpen := fileWriteModeOpen fs |}.

Definition set_fileWriteModeOpen (fs : sivaFS) (b : bool) : sivaFS :=
  {| underlying := underlying fs; path := path fs; f := f fs; rw := rw fs;
     fileWriteModeOpen := b |}.

(** addTrailingSlash adds trailing slash to the path if it does not have
    one. *)
Definition addTrailingSlash (path : gostring) : gostring :=
  match path with
  | [] => path
  | _ => if HasSuffixSlash path then path else path ++ [Separator]
  end.

(** removeLeadingSlash removes leading slash of the path, if any. *)
Definition removeLeadingSlash (path : gostring) : gostring :=
  if HasPrefixSlash path then drop 1 path else path.

(** normalizePath returns a path relative to '/'. *)
Definition normalizePath (path : gostring) : gostring :=
  removeLeadingSlash (filepath.Join [[Separator]; path]).

Definition ensureOpen (fs : sivaFS) : option error * sivaFS :=
  match rw fs with
  | Some _ => (None, fs)
  | None =>
      match open_fault (underlying fs) with
      | Some err => (Some err, fs)
      | None =>
          match NewReaderWriter (underlying fs) with
          | Err err => (Some err, fs)
          | Ok w =>
              (None,
               {| underlying := underlying fs; path := path fs;
                  f := Some {| opened_at := path fs |}; rw := Some w;
                  fileWriteModeOpen := fileWriteModeOpen fs |})
          end
      end
  end.

Definition ensureClosed (fs : sivaFS) : option error * sivaFS :=
  match rw fs with
  | None => (None, fs)
  | Some w =>
      match rw_Close (underlying fs) w with
      | (Some err, w', b) =>
          (Some err,
           {| underlying := b; path := path fs; f := f fs; rw := Some w';
              fileWriteModeOpen := fileWriteModeOpen fs |})
      | (None, _, b) =>
          (close_fault b,
           {| underlying := b; path := path fs; f := None; rw := None;
              fileWriteModeOpen := fileWriteModeOpen fs |})
      end
  end.

Definition Sync (fs : sivaFS) : option error * sivaFS := ensureClosed fs.

Definition getIndex (fs : sivaFS) : result Index :=
  match rw fs with
  | None => Err ErrClosedWriter    (* not reached: every caller opens first *)
  | Some w =>
      match rw_Index (underlying fs) w with
      | Err err => Err err
      | Ok index => Ok (Filter index)
      end
  end.

(** The close function that [createFile] hands to the write handle. *)
Definition closeFunc (flag : Z) (fs : sivaFS) : option error * sivaFS :=
  match rw fs with
  | None => (None, fs)
  | Some w =>
      let fs :=
        if has flag os.O_WRONLY || has flag os.O_RDWR
        then set_fileWriteModeOpen fs false else fs in
      let '(err, w') := rw_Flush w in
      (err, set_rw fs (Some w'))
  end.

Definition createFile (now : Time) (path : gostring) (flag mode : Z)
    (fs : sivaFS) : result file * sivaFS :=
  if has flag os.O_RDWR || has flag os.O_RDONLY then (Err ErrNotSupported, fs)
  else
    let header :=
      {| Name := path; ModTime := now; Mode := mode; Flags := 0 |} in
    match rw fs with
    | None => (Err ErrClosedWriter, fs)   (* not reached: OpenFile opens first *)
    | Some w =>
        match rw_WriteHeader w header with
        | (Some err, w') => (Err err, set_rw fs (Some w'))
        | (None, w') =>
            (Ok {| Filename := path; kind := WriteHandle flag;
                   isClosed := false |},
             set_fileWriteModeOpen (set_rw fs (Some w')) true)
        end
    end.

Definition openFile (path : gostring) (flag mode : Z) (fs : sivaFS)
  : result file * sivaFS :=
  if has flag os.O_RDWR || has flag os.O_WRONLY then (Err ErrNotSupported, fs)
  else
    match getIndex fs with
    | Err err => (Err err, fs)
    | Ok index =>
        match Find index path with
        | None => (Err ErrNotExist, fs)
        | Some e =>
            match get_fault (underlying fs) with
            | Some err => (Err err, fs)
            | None =>
                (Ok {| Filename := path; kind := ReadHandle e;
                       isClosed := false |}, fs)
            end
        end
    end.

Definition OpenFile (now : Time) (path : gostring) (flag mode : Z)
    (fs : sivaFS) : result file * sivaFS :=
  let path := normalizePath path in
  if has flag os.O_CREATE && negb (has flag os.O_TRUNC)
  then (Err ErrNotSupported, fs)
  else
    match ensureOpen fs with
    | (Some err, fs) => (Err err, fs)
    | (None, fs) =>
        if has flag os.O_CREATE then
          if fileWriteModeOpen fs
          then (Err ErrFileWriteModeAlreadyOpen, fs)
          else createFile now path flag mode fs
        else openFile path flag mode fs
    end.

(** Create creates a new file, with the CREATE, TRUNCATE and WRITE ONLY
    flags. *)
Definition Create (now : Time) (path : gostring) (fs : sivaFS)
  : result file * sivaFS :=
  OpenFile now path (Z.lor (Z.lor os.O_WRONLY os.O_CREATE) os.O_TRUNC) 438 fs.

Definition Open (now : Time) (path : gostring) (fs : sivaFS)
  : result file * sivaFS :=
  OpenFile now path os.O_RDONLY 0 fs.

(** Modelled from the spec: the [Close] of a file handle, declared in a
    file of the repository that is not among the sources.  "Once closed,
    all further I/O fails"; closing a write handle "flushes the owning
    session and clears the writer-busy flag exactly once even if close is
    called multiple times", through the close function it was given. *)
Definition file_Close (h : file) (fs : sivaFS)
  : option error * file * sivaFS :=
  if isClosed h then (Some ErrAlreadyClosed, h, fs)
  else
    let h' := {| Filename := Filename h; kind := kind h; isClosed := true |} in
    match kind h with
    | WriteHandle flag => let '(err, fs) := closeFunc flag fs in (err, h', fs)
    | ReadHandle _ => (None, h', fs)
    end.

Definition listFiles (index : Index) (dir : gostring) : result (list FileInfo) :=
  let dir := addTrailingSlash dir in
  match Glob index (dir ++ str "*") with
  | Err err => Err err
  | Ok entries => Ok (newFileInfo <$> entries)
  end.

(** The loop of [getDir]: the latest modification time of the entries,
    starting from the zero [Time]. *)
Definition latest (oldDir : Time) (e : IndexEntry) : Time :=
  if Before oldDir (ModTime e) then ModTime e else oldDir.

Definition getDir (index : Index) (dir : gostring) : result (option FileInfo) :=
  let dir := addTrailingSlash dir in
  match Glob index (path.Join [dir; str "*"]) with
  | Err err => Err err
  | Ok [] => Ok None
  | Ok entries =>
      Ok (Some (newDirFileInfo (path.Clean dir)
                               (foldl latest zeroTime entries)))
  end.

(** The first loop of [listDirs]: [dirs] maps the directory of each entry
    to the latest modification time seen for it. *)
Definition noteDir (dirs : gmap gostring Time) (e : IndexEntry)
  : gmap gostring Time :=
  let dir := filepath.Dir (Name e) in
  match dirs !! dir with
  | Some oldDir =>
      if Before oldDir (ModTime e) then <[dir := ModTime e]> dirs else dirs
  | None => <[dir := ModTime e]> dirs
  end.

(** Go leaves the iteration order of a map open: the order of the result
    is the order of [map_to_list], and no statement depends on it. *)
Definition listDirs (index : Index) (dir : gostring) : result (list FileInfo) :=
  let dir := addTrailingSlash dir in
  match Glob index (dir ++ str "*/*") with
  | Err err => Err err
  | Ok entries =>
      let dirs := foldl noteDir ∅ entries in
      Ok ((λ '(dir, mt), newDirFileInfo dir mt) <$> map_to_list dirs)
  end.

Definition Stat (p : gostring) (fs : sivaFS) : result FileInfo * sivaFS :=
  let p := normalizePath p in
  match ensureOpen fs with
  | (Some err, fs) => (Err err, fs)
  | (None, fs) =>
      match getIndex fs with
      | Err err => (Err err, fs)
      | Ok index =>
          match Find index p with
          | Some e => (Ok (newFileInfo e), fs)
          | None =>
              match getDir index p with
              | Err err => (Err err, fs)
              | Ok None => (Err ErrNotExist, fs)
              | Ok (Some stat) => (Ok stat, fs)
              end
          end
      end
  end.

Definition ReadDir (path : gostring) (fs : sivaFS)
  : result (list FileInfo) * sivaFS :=
  let path := normalizePath path in
  match ensureOpen fs with
  | (Some err, fs) => (Err err, fs)
  | (None, fs) =>
      match getIndex fs with
      | Err err => (Err err, fs)
      | Ok index =>
          match listFiles index path with
          | Err err => (Err err, fs)
          | Ok files =>
              match listDirs index path with
              | Err err => (Err err, fs)
              | Ok dirs => (Ok (dirs ++ files), fs)
              end
          end
      end
  end.

Definition MkdirAll (filename : gostring) (perm : Z) (fs : sivaFS)
  : option error * sivaFS :=
  match ensureOpen fs with
  | (Some err, fs) => (Some err, fs)
  | (None, fs) =>
      match getIndex fs with
      | Err err => (Some err, fs)
      | Ok index =>
          match Find index filename with
          | Some _ => (Some (PathError "mkdir" filename ENOTDIR), fs)
          | None => (None, fs)
          end
      end
  end.

Definition Remove (now : Time) (path : gostring) (fs : sivaFS)
  : option error * sivaFS :=
  let path := normalizePath path in
  match ensureOpen fs with
  | (Some err, fs) => (Some err, fs)
  | (None, fs) =>
      match getIndex fs with
      | Err err => (Some err, fs)
      | Ok index =>
          match Find index path with
          | Some _ =>
              match rw fs with
              | None => (Some ErrClosedWriter, fs)   (* not reached *)
              | Some w =>
                  let '(err, w') :=
                    rw_WriteHeader w
                      {| Name := path; ModTime := now; Mode := 0;
                         Flags := siva.FlagDeleted |} in
                  (err, set_rw fs (Some w'))
              end
          | None =>
              match getDir index path with
              | Err err => (Some err, fs)
              | Ok (Some _) => (Some (PathError "remove" path ENOTEMPTY), fs)
              | Ok None =>
                  (* there are no file and no directory with this path *)
                  (Some ErrNotExist, fs)
              end
          end
      end
  end.

Definition Rename (from to : gostring) (fs : sivaFS) : option error * sivaFS :=
  (Some ErrNotSupported, fs).

(** ** Vocabulary of the statements *)

(** The characters that [filepath.Match] reads as operators in a pattern. *)
Definition glob_meta (c : ascii) : bool :=
  bool_decide (c = "*"%char) || bool_decide (c = "?"%char)
  || bool_decide (c = "["%char) || bool_decide (c = "\"%char).

Definition no_meta (s : gostring) : Prop := forallb (λ c, negb (glob_meta c)) s = true.

(** [strip_prefix lit s] is the rest of [s] after [lit], when [s] starts
    with [lit]. *)
Fixpoint strip_prefix (lit s : gostring) : option gostring :=
  match lit, s with
  | [], _ => Some s
  | c :: lit', x :: s' =>
      if bool_decide (c = x) then strip_prefix lit' s' else None
  | _ :: _, [] => None
  end.

(** [cut_sep s] cuts [s] at its first separator. *)
Fixpoint cut_sep (s : gostring) : option (gostring * gostring) :=
  match s with
  | [] => None
  | c :: s' =>
      if is_sep c then Some ([], s')
      else match cut_sep s' with
           | Some (x, y) => Some (c :: x, y)
           | None => None
           end
  end.

(** A path is normalized when [normalizePath] leaves it as it is. *)
Definition normalized (d : gostring) : Prop := normalizePath d = d.

(** [name] is an immediate child of the directory [d]: [d], a slash unless
    [d] is the root, and one more element. *)
Definition child_of (d name : gostring) : Prop :=
  ∃ x, name = addTrailingSlash d ++ x ∧ contains_sep x = false.

(** [name] lies two levels below [d]: [d/x/y], the elements [x] and [y]
    without a separator. *)
Definition grandchild_of (d name : gostring) : Prop :=
  ∃ x y, name = addTrailingSlash d ++ x ++ Separator :: y
         ∧ contains_sep x = false ∧ contains_sep y = false.

(** [name] is nested anywhere below [d]. *)
Definition nested_below (d name : gostring) : Prop :=
  ∃ x, x ≠ [] ∧ name = addTrailingSlash d ++ x.

(** The boolean forms of [child_of] and [grandchild_of]. *)
Definition child_b (d name : gostring) : bool :=
  match strip_prefix (addTrailingSlash d) name with
  | Some t => negb (contains_sep t)
  | None => false
  end.

Definition grandchild_b (d name : gostring) : bool :=
  match strip_prefix (addTrailingSlash d) name with
  | Some t =>
      match cut_sep t with
      | Some (_, y) => negb (contains_sep y)
      | None => false
      end
  | None => false
  end.

(** The entries of the index that are immediate children of [d], and
    those two levels below [d]. *)
Definition children (index : Index) (d : gostring) : list IndexEntry :=
  List.filter (λ e, child_b d (Name e)) index.

Definition grandchildren (index : Index) (d : gostring) : list IndexEntry :=
  List.filter (λ e, grandchild_b d (Name e)) index.

(** An element that [Clean] keeps as it is. *)
Definition plain (e : gostring) : Prop :=
  e ≠ [] ∧ e ≠ dot ∧ e ≠ dotdot ∧ contains_sep e = false.

(** ** Sample archives *)

(** A backing store without faults that holds the entries [i]. *)
Definition healthy (i : Index) : Backing :=
  {| archive := i; open_fault := None; read_fault := None;
     index_fault := None; get_fault := None; write_fault := None;
     close_fault := None |}.

(** A live entry written at time [t]. *)
Definition entry (name : string) (t : Time) : IndexEntry :=
  {| Name := str name; ModTime := t; Mode := 420; Flags := 0 |}.

(** A filesystem on an archive whose only entry is [a/b/c]. *)
Definition deep_fs : sivaFS :=
  New (healthy [entry "a/b/c" 5]) (str "archive.siva").

(** The flags of [Create]. *)
Definition create_flags : Z := Z.lor (Z.lor O_WRONLY O_CREATE) O_TRUNC.

(** A filesystem on an empty archive after [Create] of [w]: the write
    handle is open. *)
Definition busy_fs : sivaFS :=
  snd (Create 1 (str "w") (New (healthy []) (str "archive.siva"))).

Definition busy_handle : file :=
  {| Filename := str "w"; kind := WriteHandle create_flags; isClosed := false |}.

(** The header that [createFile] writes. *)
Definition createHeader (now : Time) (path : gostring) (mode : Z) : Header :=
  {| Name := path; ModTime := now; Mode := mode; Flags := 0 |}.

(** The writer after a header was appended. *)
Definition appended (w : ReadWriter) (h : Header) : ReadWriter :=
  {| base := base w; written := written w ++ [h]; current := true;
     closed := false |}.

(** The flag combinations that [OpenFile], [createFile] and [openFile]
    turn down: create without truncate, read and write on one handle, and
    write without create. *)
Definition unsupported (flag : Z) : bool :=
  (has flag O_CREATE && negb (has flag O_TRUNC))
  || has flag O_RDWR
  || (negb (has flag O_CREATE) && has flag O_WRONLY).

(** A backing store on which the index block cannot be written. *)
Definition unwritable : Backing :=
  {| archive := []; open_fault := None; read_fault := None;
     index_fault := None; get_fault := None;
     write_fault := Some (IOError 5); close_fault := None |}.

(** A filesystem whose [Sync] failed while the index block was written:
    a file was created and its handle closed, then [Sync] could not write
    the index block of the new entry.  The session stays open on a closed
    writer. *)
Definition stuck_fs : sivaFS :=
  snd (Sync
         (snd (closeFunc create_flags
                 (snd (Create 1 (str "w")
                         (New unwritable (str "archive.siva"))))))).

(** The name a file info carries. *)
Definition infoName (fi : FileInfo) : gostring :=
  match fi with
  | newFileInfo e => Name e
  | newDirFileInfo name _ => name
  end.

(** [mt] is the latest modification time among the entries of [es] whose
    directory is [n], and there is such an entry. *)
Definition is_latest (es : list IndexEntry) (n : gostring) (mt : Time) : Prop :=
  (∃ e, In e es ∧ Dir (Name e) = n ∧ ModTime e = mt)
  ∧ ∀ e, In e es → Dir (Name e) = n → ModTime e <= mt.

(** A filesystem on an archive whose only entry is [a/b/c/d]. *)
Definition deeper_fs : sivaFS :=
  New (healthy [entry "a/b/c/d" 5]) (str "archive.siva").

(** An entry of the archive is live when no later entry has its name and
    it is not a tombstone: these are the non-deleted entries. *)
Definition live (raw : Index) (e : IndexEntry) : Prop :=
  ∃ earlier later,
    raw = earlier ++ e :: later
    ∧ (∀ e', In e' later → Name e' ≠ Name e)
    ∧ deleted e = false.

(** The file of the archive and its reader-writer are set together. *)
Definition session_consistent (fs : sivaFS) : Prop :=
  rw fs = None ↔ f fs = None.

(** A backing store whose file cannot be opened. *)
Definition unopenable : Backing :=
  {| archive := []; open_fault := Some (IOError 2); read_fault := None;
     index_fault := None; get_fault := None; write_fault := None;
     close_fault := None |}.

(** A filesystem on an open session with the entries [a/b], [a/c], [x]
    and [d/e/f]. *)
Definition sample_fs : sivaFS :=
  snd (ensureOpen
         (New (healthy [entry "a/b" 3; entry "a/c" 7; entry "x" 1;
                        entry "d/e/f" 4])
              (str "archive.siva"))).

Definition sample_index : Index :=
  [entry "a/b" 3; entry "a/c" 7; entry "x" 1; entry "d/e/f" 4].

Definition sample_writer : ReadWriter :=
  {| base := [entry "a/b" 3; entry "a/c" 7; entry "x" 1; entry "d/e/f" 4];
     written := []; current := false; closed := false |}.

(** ** Lemmas on patterns without operators *)

Lemma strip_prefix_app lit t : strip_prefix lit (lit ++ t) = Some t.
Proof.
  induction lit as [|c lit IH]; simpl; [done|].
  by rewrite bool_decide_eq_true_2.
Qed.

Lemma strip_prefix_Some lit s t : strip_prefix lit s = Some t ↔ s = lit ++ t.
Proof.
  split; [|intros ->; apply strip_prefix_app].
  revert s; induction lit as [|c lit IH]; intros [|x s]; simpl; try congruence.
  case_bool_decide as Hcx; [|done]. intros Hs%IH. by subst.
Qed.

Lemma is_sep_Separator : is_sep Separator = true.
Proof. done. Qed.

Lemma cut_sep_app x y :
  contains_sep x = false → cut_sep (x ++ Separator :: y) = Some (x, y).
Proof.
  induction x as [|c x IH]; simpl; [done|].
  intros [Hc Hx]%orb_false_elim. rewrite Hc, IH; done.
Qed.

Lemma cut_sep_Some s x y :
  cut_sep s = Some (x, y) ↔ s = x ++ Separator :: y ∧ contains_sep x = false.
Proof.
  split; [|intros [-> Hx]; by apply cut_sep_app].
  revert x; induction s as [|c s IH]; intros x; simpl; [done|].
  destruct (is_sep c) eqn:Hc.
  - apply bool_decide_eq_true in Hc as ->. by intros [= <- <-].
  - destruct (cut_sep s) as [[x' y']|]; [|done].
    intros [= <- <-]. destruct (IH x' eq_refl) as [-> Hx].
    split; [done|]. simpl. by rewrite Hc.
Qed.

Lemma cut_sep_None s : cut_sep s = None ↔ contains_sep s = false.
Proof.
  induction s as [|c s IH]; simpl; [done|].
  destruct (is_sep c); simpl; [done|].
  destruct (cut_sep s) as [[??]|]; [|tauto].
  split; [done|]. intros H. apply IH in H. done.
Qed.

Lemma glob_meta_false c :
  glob_meta c = false →
  c ≠ "*"%char ∧ c ≠ "?"%char ∧ c ≠ "["%char ∧ c ≠ "\"%char.
Proof.
  unfold glob_meta. intros H.
  apply orb_false_elim in H as [H H4].
  apply orb_false_elim in H as [H H3].
  apply orb_false_elim in H as [H1 H2].
  apply bool_decide_eq_false in H1, H2, H3, H4. done.
Qed.

Lemma no_meta_cons c s : no_meta (c :: s) ↔ glob_meta c = false ∧ no_meta s.
Proof.
  unfold no_meta; simpl. rewrite andb_true_iff, negb_true_iff. done.
Qed.

Lemma no_meta_app s t : no_meta (s ++ t) ↔ no_meta s ∧ no_meta t.
Proof. unfold no_meta. rewrite forallb_app, andb_true_iff. done. Qed.

Ltac literal_char H :=
  let H1 := fresh in let H2 := fresh in let H3 := fresh in let H4 := fresh in
  apply glob_meta_false in H as (H1 & H2 & H3 & H4);
  rewrite ?(bool_decide_eq_false_2 _ H1), ?(bool_decide_eq_false_2 _ H2),
    ?(bool_decide_eq_false_2 _ H3), ?(bool_decide_eq_false_2 _ H4).

Lemma matchChunkFrom_literal lit :
  no_meta lit → ∀ fuel s, (length lit < fuel)%nat →
  matchChunkFrom fuel lit s =
    Some (match s with
          | Some s =>
              match strip_prefix lit s with
              | Some t => ChunkRest t
              | None => ChunkFail
              end
          | None => ChunkFail
          end).
Proof.
  induction lit as [|c lit IH]; intros Hlit fuel s Hfuel.
  - destruct fuel; [simpl in Hfuel; lia|]. by destruct s.
  - apply no_meta_cons in Hlit as [Hc Hlit].
    destruct fuel as [|fuel]; [simpl in Hfuel; lia|].
    simpl in Hfuel. cbn [matchChunkFrom].
    literal_char Hc.
    rewrite IH by (done || lia).
    destruct s as [[|x s]|]; simpl; try done.
    case_bool_decide; done.
Qed.

Lemma matchChunk_literal lit s :
  no_meta lit →
  matchChunk lit s =
    match strip_prefix lit s with
    | Some t => ChunkRest t
    | None => ChunkFail
    end.
Proof.
  intros Hlit. unfold matchChunk.
  rewrite matchChunkFrom_literal by (done || lia). done.
Qed.

Lemma scanLiteral_literal lit p :
  no_meta lit →
  scanLiteral false (lit ++ p)
  = (lit ++ fst (scanLiteral false p), snd (scanLiteral false p)).
Proof.
  induction lit as [|c lit IH]; intros Hlit; simpl.
  - by destruct (scanLiteral false p).
  - apply no_meta_cons in Hlit as [Hc Hlit]. literal_char Hc.
    rewrite IH by done. by case_bool_decide.
Qed.

Lemma scanChunk_literal c lit p :
  no_meta (c :: lit) →
  scanChunk ((c :: lit) ++ "*"%char :: p) = (false, c :: lit, "*"%char :: p).
Proof.
  intros Hlit. unfold scanChunk.
  assert (dropStars ((c :: lit) ++ "*"%char :: p)
          = (false, (c :: lit) ++ "*"%char :: p)) as ->.
  { apply no_meta_cons in Hlit as [Hc _]. simpl. by literal_char Hc. }
  rewrite scanLiteral_literal by done. simpl. by rewrite app_nil_r.
Qed.

Lemma starSkip_sep t :
  HasPrefixSlash t = false →
  starSkip [Separator] ["*"%char] t = Ok (snd <$> cut_sep t).
Proof.
  induction t as [|c t IH]; [done|]. intros Hc. simpl in Hc.
  cbn [starSkip cut_sep]. rewrite Hc.
  rewrite matchChunk_literal by done.
  destruct t as [|x t]; [done|].
  cbn [strip_prefix].
  destruct (decide (x = Separator)) as [->|Hx].
  - rewrite bool_decide_eq_true_2 by done. done.
  - rewrite bool_decide_eq_false_2 by congruence.
    rewrite IH by (cbn; unfold is_sep; by rewrite bool_decide_eq_false_2).
    by destruct (cut_sep (x :: t)) as [[??]|].
Qed.

Lemma MatchFrom_star fuel t :
  MatchFrom (S fuel) ["*"%char] t = Some (Ok (negb (contains_sep t))).
Proof. done. Qed.

Lemma MatchFrom_star_sep_star fuel t :
  MatchFrom (S (S fuel)) (str "*/*") t
  = Some (Ok (match cut_sep t with
              | Some (_, y) => negb (contains_sep y)
              | None => false
              end)).
Proof.
  change (MatchFrom (S (S fuel)) (str "*/*") t)
    with (let skip :=
            match starSkip [Separator] ["*"%char] t with
            | Err e => Some (Err e)
            | Ok (Some t) => MatchFrom (S fuel) ["*"%char] t
            | Ok None => Some (Ok false)
            end in
          match matchChunk [Separator] t with
          | ChunkRest t =>
              match t, ["*"%char] with
              | _ :: _, [] => skip
              | _, _ => MatchFrom (S fuel) ["*"%char] t
              end
          | ChunkBad => Some (Err ErrBadPattern)
          | ChunkFail => skip
          end).
  cbv zeta. rewrite matchChunk_literal by done.
  destruct t as [|c t]; [done|]. cbn [strip_prefix cut_sep].
  unfold is_sep at 1. rewrite (bool_decide_ext (Separator = c) (c = Separator))
    by (split; congruence).
  case_bool_decide as Hc.
  - rewrite MatchFrom_star. by destruct t.
  - rewrite starSkip_sep
      by (simpl; unfold is_sep; by rewrite bool_decide_eq_false_2).
    cbn [cut_sep]. unfold is_sep. rewrite bool_decide_eq_false_2 by done.
    by destruct (cut_sep t) as [[x y]|].
Qed.

Lemma MatchFrom_literal fuel c lit p name :
  no_meta (c :: lit) →
  MatchFrom (S fuel) ((c :: lit) ++ "*"%char :: p) name
  = match strip_prefix (c :: lit) name with
    | Some t => MatchFrom fuel ("*"%char :: p) t
    | None => Some (Ok false)
    end.
Proof.
  intros Hlit.
  cbn [MatchFrom]. rewrite scanChunk_literal by done.
  change ((c :: lit) ++ "*"%char :: p) with (c :: (lit ++ "*"%char :: p)).
  cbv iota beta. rewrite matchChunk_literal by done.
  destruct (strip_prefix (c :: lit) name) as [t|]; [|done].
  by destruct t.
Qed.

(** A pattern [lit*], [lit] without operators, matches the names that are
    [lit] followed by characters other than the separator. *)
Lemma Match_children lit name :
  no_meta lit →
  Match (lit ++ ["*"%char]) name
  = Ok (match strip_prefix lit name with
        | Some t => negb (contains_sep t)
        | None => false
        end).
Proof.
  intros Hlit. unfold Match. destruct lit as [|c lit].
  - done.
  - rewrite length_app, Nat.add_comm. cbn [length Nat.add].
    rewrite MatchFrom_literal by done.
    destruct (strip_prefix (c :: lit) name); [|done].
    by rewrite MatchFrom_star.
Qed.

(** A pattern [lit*/*] matches the names that are [lit] followed by two
    elements. *)
Lemma Match_grandchildren lit name :
  no_meta lit →
  Match (lit ++ str "*/*") name
  = Ok (match strip_prefix lit name with
        | Some t =>
            match cut_sep t with
            | Some (_, y) => negb (contains_sep y)
            | None => false
            end
        | None => false
        end).
Proof.
  intros Hlit. unfold Match. destruct lit as [|c lit].
  - cbn [app length str list_ascii_of_string strip_prefix].
    by rewrite MatchFrom_star_sep_star.
  - rewrite length_app, Nat.add_comm. cbn [length Nat.add str list_ascii_of_string].
    rewrite MatchFrom_literal by done.
    destruct (strip_prefix (c :: lit) name) as [t|]; [|done].
    exact (f_equal (from_option id (Err ErrBadPattern))
             (MatchFrom_star_sep_star (S (S (length lit))) t)).
Qed.

(** When [filepath.Match] answers without an error on every name, [Glob]
    is a filter of the index. *)
Lemma Glob_filter (m : gostring → bool) pattern index :
  (∀ name, Match pattern name = Ok (m name)) →
  Glob index pattern = Ok (List.filter (λ e, m (Name e)) index).
Proof.
  intros Hm. induction index as [|e index IH]; simpl; [done|].
  by rewrite Hm, IH.
Qed.

(** ** Lemmas on path elements *)

Lemma split_sep_nonempty s : split_sep s ≠ [].
Proof.
  destruct s as [|c s]; simpl; [done|].
  destruct (is_sep c); [done|]. by destruct (split_sep s).
Qed.

Lemma join_sep_cons e e' es :
  join_sep (e :: e' :: es) = e ++ Separator :: join_sep (e' :: es).
Proof. done. Qed.

Lemma join_split s : join_sep (split_sep s) = s.
Proof.
  induction s as [|c s IH]; simpl; [done|].
  destruct (is_sep c) eqn:Hc.
  - apply bool_decide_eq_true in Hc as ->.
    pose proof (split_sep_nonempty s) as Hne.
    destruct (split_sep s) as [|e es]; [done|].
    rewrite join_sep_cons. simpl. by rewrite <- IH.
  - pose proof (split_sep_nonempty s) as Hne.
    destruct (split_sep s) as [|e es]; [done|].
    destruct es as [|e' es]; [simpl in *; by subst|].
    rewrite join_sep_cons. rewrite join_sep_cons in IH. by rewrite <- IH.
Qed.

Lemma split_sep_free e : contains_sep e = false → split_sep e = [e].
Proof.
  induction e as [|c e IH]; simpl; [done|].
  intros [Hc He]%orb_false_elim. by rewrite Hc, IH.
Qed.

Lemma split_sep_app e t :
  contains_sep e = false →
  split_sep (e ++ Separator :: t) = e :: split_sep t.
Proof.
  induction e as [|c e IH]; simpl; [done|].
  intros [Hc He]%orb_false_elim. by rewrite Hc, IH.
Qed.

Lemma split_join es :
  es ≠ [] → Forall (λ e, contains_sep e = false) es →
  split_sep (join_sep es) = es.
Proof.
  induction es as [|e es IH]; [done|]. intros _ Hes.
  apply Forall_cons in Hes as [He Hes].
  destruct es as [|e' es]; [by apply split_sep_free|].
  rewrite join_sep_cons, split_sep_app by done. by rewrite IH.
Qed.

Lemma split_sep_Forall s : Forall (λ e, contains_sep e = false) (split_sep s).
Proof.
  induction s as [|c s IH]; simpl; [by repeat constructor|].
  destruct (is_sep c) eqn:Hc; [by constructor|].
  destruct (split_sep s) as [|e es]; [by repeat constructor; simpl; rewrite Hc|].
  apply Forall_cons in IH as [He Hes]. constructor; [|done].
  simpl. by rewrite Hc.
Qed.

Lemma join_sep_app es fs :
  es ≠ [] → fs ≠ [] →
  join_sep (es ++ fs) = join_sep es ++ Separator :: join_sep fs.
Proof.
  induction es as [|e es IH]; [done|]. intros _ Hfs.
  destruct es as [|e' es].
  - destruct fs; [done|]. done.
  - change ((e :: e' :: es) ++ fs) with (e :: e' :: (es ++ fs)).
    rewrite !join_sep_cons.
    change (e' :: es ++ fs) with ((e' :: es) ++ fs).
    rewrite IH by done. by rewrite <- app_assoc.
Qed.

Lemma plain_sep_free e : plain e → contains_sep e = false.
Proof. by intros (_ & _ & _ & ?). Qed.

Lemma clean_elems_plain rooted es stack rest :
  Forall plain es →
  clean_elems rooted stack (es ++ rest)
  = clean_elems rooted (rev es ++ stack) rest.
Proof.
  revert stack. induction es as [|e es IH]; intros stack Hes; [done|].
  apply Forall_cons in Hes as [(He1 & He2 & He3 & _) Hes].
  simpl. rewrite !bool_decide_eq_false_2 by done. simpl.
  rewrite IH by done. by rewrite <- app_assoc.
Qed.

Lemma clean_elems_rooted stack elems :
  Forall plain stack → Forall (λ e, contains_sep e = false) elems →
  Forall plain (clean_elems true stack elems).
Proof.
  revert stack. induction elems as [|e elems IH]; intros stack Hst Hel; simpl.
  - by apply Forall_rev.
  - apply Forall_cons in Hel as [He Hel].
    destruct (bool_decide (e = [])) eqn:H1; simpl; [by apply IH|].
    destruct (bool_decide (e = dot)) eqn:H2; simpl; [by apply IH|].
    apply bool_decide_eq_false in H1, H2.
    case_bool_decide as H3.
    + destruct stack as [|top stack]; [by apply IH|].
      apply Forall_cons in Hst as [Htop Hst].
      case_bool_decide as H4; [|by apply IH].
      subst top. by destruct Htop as (_ & _ & ? & _).
    + apply IH; [|done]. by constructor.
Qed.

(** [normalizePath] by elements: the elements of the path, cleaned from
    the root, and joined again. *)
Lemma normalizePath_elems p :
  normalizePath p = join_sep (clean_elems true [] (split_sep p)).
Proof. done. Qed.

Lemma normalizePath_plain p : Forall plain (clean_elems true [] (split_sep p)).
Proof. apply clean_elems_rooted; [done|apply split_sep_Forall]. Qed.

Lemma normalizePath_join cs :
  Forall plain cs → normalizePath (join_sep cs) = join_sep cs.
Proof.
  intros Hcs. rewrite normalizePath_elems.
  destruct cs as [|c cs]; [done|].
  rewrite split_join; [|done|].
  - rewrite <- (app_nil_r (c :: cs)) at 1.
    rewrite clean_elems_plain by done. simpl.
    by rewrite app_nil_r, rev_unit, rev_involutive.
  - eapply Forall_impl; [done|]. apply plain_sep_free.
Qed.

(** Every path that [normalizePath] returns is normalized. *)
Lemma normalizePath_normalized p : normalized (normalizePath p).
Proof.
  unfold normalized. rewrite (normalizePath_elems p).
  apply normalizePath_join, normalizePath_plain.
Qed.

Lemma normalized_elems d :
  normalized d → ∃ cs, Forall plain cs ∧ d = join_sep cs.
Proof.
  intros Hd. exists (clean_elems true [] (split_sep d)).
  split; [apply normalizePath_plain|]. by rewrite <- normalizePath_elems.
Qed.

Lemma plain_head e : plain e → ∃ x e', e = x :: e' ∧ is_sep x = false.
Proof.
  intros (Hne & _ & _ & Hsep). destruct e as [|x e']; [done|].
  exists x, e'. split; [done|]. simpl in Hsep.
  by apply orb_false_elim in Hsep as [? _].
Qed.

Lemma join_sep_head x e es :
  ∃ s, join_sep ((x :: e) :: es) = x :: s.
Proof. destruct es; simpl; eauto. Qed.

Lemma HasSuffixSlash_app s e :
  e ≠ [] → HasSuffixSlash (s ++ e) = HasSuffixSlash e.
Proof.
  intros He. unfold HasSuffixSlash. destruct e as [|c e]; [done|].
  by rewrite last_app_cons.
Qed.

Lemma HasSuffixSlash_free e : contains_sep e = false → HasSuffixSlash e = false.
Proof.
  unfold HasSuffixSlash. induction e as [|c e IH]; [done|].
  intros [Hc He]%orb_false_elim.
  destruct e as [|c' e]; [by simpl|]. rewrite last_cons_cons. by apply IH.
Qed.

Lemma join_plain_suffix cs :
  cs ≠ [] → Forall plain cs → HasSuffixSlash (join_sep cs) = false.
Proof.
  induction cs as [|e cs IH]; [done|]. intros _ Hcs.
  apply Forall_cons in Hcs as [He Hcs].
  destruct cs as [|e' cs].
  - simpl. by apply HasSuffixSlash_free, plain_sep_free.
  - rewrite join_sep_cons.
    change (e ++ Separator :: join_sep (e' :: cs))
      with (e ++ [Separator] ++ join_sep (e' :: cs)).
    pose proof (plain_head e') as (x & e'' & -> & _);
      [by apply Forall_cons in Hcs as [? _]|].
    destruct (join_sep_head x e'' cs) as [s Hs].
    rewrite app_assoc, HasSuffixSlash_app; [by apply IH|congruence].
Qed.

(** A normalized path is the root (the empty path) or does not end in a
    slash: [addTrailingSlash] appends one. *)
Lemma addTrailingSlash_normalized d :
  normalized d → d ≠ [] → addTrailingSlash d = d ++ [Separator].
Proof.
  intros (cs & Hcs & ->)%normalized_elems Hd.
  assert (cs ≠ []) as Hne by (by intros ->).
  unfold addTrailingSlash. rewrite join_plain_suffix by done.
  by destruct (join_sep cs).
Qed.

Lemma Clean_relative c cs ts :
  Forall plain (c :: cs) → Forall (λ e, contains_sep e = false) ts →
  Clean (join_sep ((c :: cs) ++ ts))
  = match join_sep (clean_elems false (rev (c :: cs)) ts) with
    | [] => dot
    | out => out
    end.
Proof.
  intros Hcs Hts.
  assert (split_sep (join_sep ((c :: cs) ++ ts)) = (c :: cs) ++ ts) as Hsplit.
  { apply split_join; [done|]. apply Forall_app. split; [|done].
    eapply Forall_impl; [done|]. apply plain_sep_free. }
  pose proof Hcs as [(x & c' & -> & Hx)%plain_head _]%Forall_cons.
  destruct (join_sep_head x c' (cs ++ ts)) as [s Hs].
  change (((x :: c') :: cs) ++ ts) with ((x :: c') :: (cs ++ ts)) in *.
  unfold Clean. rewrite Hsplit, Hs. cbn [HasPrefixSlash]. rewrite Hx.
  change ((x :: c') :: cs ++ ts) with (((x :: c') :: cs) ++ ts).
  rewrite (clean_elems_plain false ((x :: c') :: cs) [] ts) by done.
  rewrite app_nil_r.
  by destruct (join_sep (clean_elems false (rev ((x :: c') :: cs)) ts)).
Qed.

Lemma Join_nonempty e rest :
  e ≠ [] → Join (e :: rest) = Clean (join_sep (e :: rest)).
Proof. by destruct e. Qed.

(** The pattern of [getDir]: joining the directory and a star only appends
    the star. *)
Lemma getDir_pattern d :
  normalized d →
  Join [addTrailingSlash d; str "*"] = addTrailingSlash d ++ str "*".
Proof.
  intros Hd. destruct (decide (d = [])) as [->|Hne]; [done|].
  rewrite addTrailingSlash_normalized by done.
  apply normalized_elems in Hd as (cs & Hcs & ->).
  destruct cs as [|c cs]; [done|].
  rewrite Join_nonempty by (by destruct (join_sep (c :: cs))).
  assert (join_sep [join_sep (c :: cs) ++ [Separator]; str "*"]
          = join_sep ((c :: cs) ++ [[]; str "*"])) as ->.
  { rewrite join_sep_app by done. simpl. by rewrite <- app_assoc. }
  rewrite Clean_relative by (done || by repeat constructor).
  cbn [clean_elems bool_decide]. simpl bool_decide. cbv iota. cbn [orb].
  change (rev (str "*" :: rev (c :: cs))) with (rev ([str "*"] ++ rev (c :: cs))).
  rewrite rev_app_distr, rev_involutive.
  rewrite join_sep_app by done.
  rewrite <- app_assoc.
  by destruct (join_sep (c :: cs)).
Qed.

(** The name of the directory that [getDir] returns. *)
Lemma Clean_dir d :
  normalized d → d ≠ [] → Clean (addTrailingSlash d) = d.
Proof.
  intros Hd Hne. rewrite addTrailingSlash_normalized by done.
  apply normalized_elems in Hd as (cs & Hcs & ->).
  destruct cs as [|c cs]; [done|].
  assert (join_sep (c :: cs) ++ [Separator] = join_sep ((c :: cs) ++ [[]]))
    as -> by (by rewrite join_sep_app).
  rewrite Clean_relative by (done || by repeat constructor).
  cbn [clean_elems bool_decide]. simpl bool_decide. cbv iota. cbn [orb].
  rewrite rev_involutive. by destruct (join_sep (c :: cs)).
Qed.

(** ** Lemmas on Match and Glob *)

Lemma starSkip_error chunk pattern name e :
  starSkip chunk pattern name = Err e → e = ErrBadPattern.
Proof.
  induction name as [|c name IH]; simpl; [done|].
  repeat case_match; intros; simplify_eq; eauto.
Qed.

Lemma MatchFrom_error fuel pattern name e :
  MatchFrom fuel pattern name = Some (Err e) → e = ErrBadPattern.
Proof.
  revert pattern name.
  induction fuel as [|fuel IH]; intros pattern name; simpl; [done|].
  repeat case_match; intros; simplify_eq;
    eauto using starSkip_error.
Qed.

(** The only error of [filepath.Match] is [ErrBadPattern]. *)
Lemma Match_error pattern name e :
  Match pattern name = Err e → e = ErrBadPattern.
Proof.
  unfold Match. destruct (MatchFrom _ _ _) as [[|]|] eqn:HM; intros; simplify_eq.
  - by eapply MatchFrom_error.
  - done.
Qed.

Lemma Glob_error index pattern e :
  Glob index pattern = Err e → e = ErrBadPattern.
Proof.
  induction index as [|x index IH]; simpl; [done|].
  destruct (Match pattern (Name x)) eqn:HM.
  - destruct (Glob index pattern); intros; simplify_eq. by apply IH.
  - intros; simplify_eq. by eapply Match_error.
Qed.

Lemma no_meta_addTrailingSlash d : no_meta d → no_meta (addTrailingSlash d).
Proof.
  intros Hd. unfold addTrailingSlash. destruct d as [|c d]; [done|].
  destruct (HasSuffixSlash (c :: d)); [done|].
  apply no_meta_app. by split.
Qed.

Lemma child_b_spec d name : child_b d name = true ↔ child_of d name.
Proof.
  unfold child_b, child_of. split.
  - destruct (strip_prefix _ name) as [t|] eqn:Ht; [|done].
    apply strip_prefix_Some in Ht. intros Hsep%negb_true_iff. eauto.
  - intros (x & -> & Hx). by rewrite strip_prefix_app, Hx.
Qed.

Lemma grandchild_b_spec d name :
  grandchild_b d name = true ↔ grandchild_of d name.
Proof.
  unfold grandchild_b, grandchild_of. split.
  - destruct (strip_prefix _ name) as [t|] eqn:Ht; [|done].
    apply strip_prefix_Some in Ht.
    destruct (cut_sep t) as [[x y]|] eqn:Hcut; [|done].
    apply cut_sep_Some in Hcut as [-> Hx]. intros Hy%negb_true_iff.
    exists x, y. done.
  - intros (x & y & -> & Hx & Hy).
    by rewrite strip_prefix_app, cut_sep_app, Hy.
Qed.

Lemma Glob_children index d :
  no_meta d →
  Glob index (addTrailingSlash d ++ str "*") = Ok (children index d).
Proof.
  intros Hd. apply Glob_filter. intros name.
  apply (Match_children (addTrailingSlash d) name).
  by apply no_meta_addTrailingSlash.
Qed.

Lemma Glob_grandchildren index d :
  no_meta d →
  Glob index (addTrailingSlash d ++ str "*/*") = Ok (grandchildren index d).
Proof.
  intros Hd. apply Glob_filter. intros name.
  apply (Match_grandchildren (addTrailingSlash d) name).
  by apply no_meta_addTrailingSlash.
Qed.

Lemma children_In index d e :
  In e (children index d) ↔ In e index ∧ child_of d (Name e).
Proof. unfold children. by rewrite filter_In, child_b_spec. Qed.

Lemma grandchildren_In index d e :
  In e (grandchildren index d) ↔ In e index ∧ grandchild_of d (Name e).
Proof. unfold grandchildren. by rewrite filter_In, grandchild_b_spec. Qed.

Lemma children_nil index d :
  children index d = [] ↔ ¬ ∃ e, In e index ∧ child_of d (Name e).
Proof.
  split.
  - intros Hnil (e & He). apply children_In in He. by rewrite Hnil in He.
  - intros Hno. destruct (children index d) as [|e l] eqn:Hc; [done|].
    exfalso. apply Hno. exists e. apply children_In. rewrite Hc. by left.
Qed.

(** [getDir] on a normalized path without pattern operators: a directory
    is synthesized exactly when the index has an immediate child. *)
Lemma getDir_spec index d :
  normalized d → no_meta d →
  getDir index d
  = Ok (match children index d with
        | [] => None
        | entries =>
            Some (newDirFileInfo (Clean (addTrailingSlash d))
                                 (foldl latest zeroTime entries))
        end).
Proof.
  intros Hn Hd. unfold getDir.
  rewrite getDir_pattern, Glob_children by done.
  by destruct (children index d).
Qed.

Lemma getDir_None index d :
  normalized d → no_meta d →
  getDir index d = Ok None ↔ ¬ ∃ e, In e index ∧ child_of d (Name e).
Proof.
  intros Hn Hd. rewrite getDir_spec, <- children_nil by done.
  by destruct (children index d).
Qed.

Lemma getDir_Some index d :
  normalized d → no_meta d →
  (∃ e, In e index ∧ child_of d (Name e)) →
  ∃ mt, getDir index d
        = Ok (Some (newDirFileInfo (Clean (addTrailingSlash d)) mt)).
Proof.
  intros Hn Hd He. rewrite getDir_spec by done.
  destruct (children index d) as [|e' l] eqn:Hf; [|eauto].
  by apply children_nil in Hf.
Qed.

(** ** Lemmas on the session *)

Lemma ensureOpen_open fs w : rw fs = Some w → ensureOpen fs = (None, fs).
Proof. unfold ensureOpen. by intros ->. Qed.

Lemma ensureOpen_rw fs fs' :
  ensureOpen fs = (None, fs') → ∃ w, rw fs' = Some w.
Proof.
  unfold ensureOpen. repeat case_match; intros; simplify_eq/=; eauto.
Qed.

Lemma ensureOpen_flag fs r fs' :
  ensureOpen fs = (r, fs') → fileWriteModeOpen fs' = fileWriteModeOpen fs.
Proof.
  unfold ensureOpen. repeat case_match; intros; by simplify_eq/=.
Qed.

Lemma set_rw_same fs w : rw fs = Some w → set_rw fs (Some w) = fs.
Proof. destruct fs; simpl. by intros ->. Qed.

Lemma getDir_error index d e : getDir index d = Err e → e = ErrBadPattern.
Proof.
  unfold getDir. destruct (Glob index _) as [[|]|] eqn:HG; intros; simplify_eq.
  by eapply Glob_error.
Qed.

(** ** Lemmas on the filtered index *)

Lemma filterSeen_more n seen seen' l e :
  (∀ x, x ∈ seen' ↔ x ∈ seen ∨ x = n) →
  In e (filterSeen seen l) → Name e ≠ n → In e (filterSeen seen' l).
Proof.
  revert seen seen'. induction l as [|x l IH]; intros seen seen' Hs; [done|].
  cbn [filterSeen]. intros Hin Hne.
  destruct (decide (Name x ∈ seen)) as [Hx|Hx].
  - rewrite bool_decide_eq_true_2 in Hin by done.
    rewrite bool_decide_eq_true_2 by (apply Hs; by left). eauto.
  - rewrite bool_decide_eq_false_2 in Hin by done.
    assert (∀ y, y ∈ {[Name x]} ∪ seen' ↔ y ∈ {[Name x]} ∪ seen ∨ y = n)
      as Hs' by (intros y; rewrite !elem_of_union, Hs; tauto).
    destruct (decide (Name x = n)) as [Hxn|Hxn].
    + rewrite bool_decide_eq_true_2 by (apply Hs; by right).
      destruct (deleted x).
      * apply (IH ({[Name x]} ∪ seen)); [|done..].
        intros y. rewrite elem_of_union, elem_of_singleton, Hs, Hxn. tauto.
      * destruct Hin as [->|Hin]; [done|].
        apply (IH ({[Name x]} ∪ seen)); [|done..].
        intros y. rewrite elem_of_union, elem_of_singleton, Hs, Hxn. tauto.
    + rewrite bool_decide_eq_false_2 by (rewrite Hs; tauto).
      destruct (deleted x).
      * by apply (IH _ _ Hs').
      * destruct Hin as [->|Hin]; [by left|]. right. by apply (IH _ _ Hs').
Qed.

Lemma filterSeen_In seen l e :
  In e (filterSeen seen l)
  ↔ ∃ l1 l2, l = l1 ++ e :: l2 ∧ (Name e ∉ seen)
             ∧ (∀ e', In e' l1 → Name e' ≠ Name e) ∧ deleted e = false.
Proof.
  revert seen. induction l as [|x l IH]; intros seen.
  - split; [done|]. intros (l1 & l2 & Hl & _). by destruct l1.
  - cbn [filterSeen]. destruct (decide (Name x ∈ seen)) as [Hx|Hx].
    + rewrite bool_decide_eq_true_2 by done. rewrite IH. split.
      * intros (l1 & l2 & -> & Hseen & Hl1 & Hdel).
        exists (x :: l1), l2. repeat split; [done| |done].
        intros e' [<-|He']; [|by apply Hl1]. by intros Heq; rewrite Heq in Hx.
      * intros (l1 & l2 & Hl & Hseen & Hl1 & Hdel).
        destruct l1 as [|y l1]; simplify_eq/=; [done|].
        exists l1, l2. repeat split; [done| |done].
        intros e' He'. apply Hl1. by right.
    + rewrite bool_decide_eq_false_2 by done.
      assert (In e (filterSeen ({[Name x]} ∪ seen) l)
              ↔ ∃ l1 l2, x :: l = (x :: l1) ++ e :: l2 ∧ (Name e ∉ seen)
                         ∧ (∀ e', In e' (x :: l1) → Name e' ≠ Name e)
                         ∧ deleted e = false) as Hrest.
      { rewrite IH. split.
        - intros (l1 & l2 & -> & Hseen & Hl1 & Hdel).
          apply not_elem_of_union in Hseen as [Hne%not_elem_of_singleton Hseen].
          exists l1, l2. repeat split; [done| |done].
          intros e' [<-|He']; [done|by apply Hl1].
        - intros (l1 & l2 & Hl & Hseen & Hl1 & Hdel). simplify_eq/=.
          exists l1, l2. repeat split; [| |done].
          + apply not_elem_of_union. split; [|done].
            apply not_elem_of_singleton. intros Heq.
            by apply (Hl1 x (or_introl eq_refl)).
          + intros e' He'. apply Hl1. by right. }
      assert ((∃ l1 l2, x :: l = l1 ++ e :: l2 ∧ (Name e ∉ seen)
                        ∧ (∀ e', In e' l1 → Name e' ≠ Name e)
                        ∧ deleted e = false)
              ↔ (x = e ∧ deleted e = false)
                ∨ In e (filterSeen ({[Name x]} ∪ seen) l)) as Hsplit.
      { rewrite Hrest. split.
        - intros (l1 & l2 & Hl & Hseen & Hl1 & Hdel).
          destruct l1 as [|y l1]; simplify_eq/=; [by left|].
          right. exists l1, l2. done.
        - intros [[-> Hdel]|(l1 & l2 & Hl & Hrest')].
          + exists [], l. done.
          + exists (x :: l1), l2. done. }
      rewrite Hsplit. destruct (deleted x) eqn:Hdx.
      * split; [by right|]. intros [[-> Hdel]|Hin]; [congruence|done].
      * split.
        -- intros [->|Hin]; [by left|by right].
        -- intros [[-> _]|Hin]; [by left|by right].
Qed.

Lemma Find_Some i n e : Find i n = Some e → In e i ∧ Name e = n.
Proof.
  induction i as [|x i IH]; simpl; [done|].
  case_bool_decide as Hx.
  - intros [= <-]. split; [by left|done].
  - intros [He Hn]%IH. split; [by right|done].
Qed.

Lemma Find_None i n : Find i n = None ↔ ∀ e, In e i → Name e ≠ n.
Proof.
  induction i as [|x i IH]; simpl; [by split|].
  case_bool_decide as Hx.
  - split; [done|]. intros Hi. by destruct (Hi x (or_introl eq_refl)).
  - rewrite IH. split.
    + intros Hi e [Hxe|He]; [by subst|by apply Hi].
    + intros Hi e He. apply Hi. by right.
Qed.

Lemma filterSeen_add n seen l e :
  In e (filterSeen ({[n]} ∪ seen) l)
  ↔ In e (filterSeen seen l) ∧ Name e ≠ n.
Proof.
  rewrite !filterSeen_In. split.
  - intros (l1 & l2 & Hl & Hs & H1 & Hd).
    rewrite elem_of_union, elem_of_singleton in Hs. split; [|tauto].
    exists l1, l2. repeat split; try done. tauto.
  - intros [(l1 & l2 & Hl & Hs & H1 & Hd) Hn].
    exists l1, l2. repeat split; try done.
    rewrite elem_of_union, elem_of_singleton. tauto.
Qed.

Lemma filterSeen_NoDup seen l : NoDup (Name <$> filterSeen seen l).
Proof.
  revert seen. induction l as [|x l IH]; intros seen; simpl.
  { apply NoDup_nil_2. }
  case_bool_decide as Hx; [apply IH|].
  destruct (deleted x); [apply IH|].
  rewrite fmap_cons. apply NoDup_cons_2; [|apply IH].
  rewrite list_elem_of_fmap. intros (e & Hn & He%list_elem_of_In).
  apply filterSeen_add in He as [_ Hne]. done.
Qed.

Lemma Find_NoDup i n e :
  NoDup (Name <$> i) → In e i → Name e = n → Find i n = Some e.
Proof.
  induction i as [|x i IH]; [done|]. cbn [Find].
  rewrite fmap_cons. intros [Hx Hi]%NoDup_cons [<-|He] Hn.
  - by rewrite bool_decide_eq_true_2.
  - rewrite bool_decide_eq_false_2; [by apply IH|].
    intros Hxn. apply Hx, list_elem_of_fmap. exists e.
    split; [congruence|by apply list_elem_of_In].
Qed.

(** Sorting the kept entries changes their order only. *)
Lemma Filter_In i e : In e (Filter i) ↔ In e (filterSeen ∅ (rev i)).
Proof. unfold Filter. symmetry. apply in_rev. Qed.

Lemma Filter_NoDup i : NoDup (Name <$> Filter i).
Proof. unfold Filter. rewrite <- Permutation_rev. apply filterSeen_NoDup. Qed.

(** The filtered index holds exactly the live entries of the archive. *)
Lemma Filter_live raw e : In e (Filter raw) ↔ live raw e.
Proof.
  unfold live. rewrite Filter_In, filterSeen_In. split.
  - intros (l1 & l2 & Hrev & _ & Hl1 & Hdel).
    exists (rev l2), (rev l1). repeat split; [|intros e' He'%in_rev; by apply Hl1|done].
    + rewrite <- (rev_involutive raw), Hrev, rev_app_distr. simpl.
      by rewrite <- app_assoc.
  - intros (earlier & later & -> & Hlater & Hdel).
    exists (rev later), (rev earlier). repeat split; [|apply not_elem_of_empty|intros e' He'%in_rev; by apply Hlater|done].
    + rewrite rev_app_distr. simpl. by rewrite <- app_assoc.
Qed.

(** The index that the operations read holds the live entries of the
    session: those read from the archive and those written since. *)
Lemma getIndex_live fs index :
  getIndex fs = Ok index →
  ∃ w, rw fs = Some w ∧ ∀ e, In e index ↔ live (base w ++ written w) e.
Proof.
  unfold getIndex, rw_Index. destruct (rw fs) as [w|]; [|done].
  destruct (index_fault (underlying fs)); [done|]. intros [= <-].
  exists w. split; [done|]. intros e. apply Filter_live.
Qed.

(** After a live header is appended, [Find] resolves its name to it, and
    the entries of other names stay in the filtered index. *)
Lemma Filter_append i h :
  deleted h = false →
  Find (Filter (i ++ [h])) (Name h) = Some h
  ∧ ∀ e, In e (Filter i) → Name e ≠ Name h → In e (Filter (i ++ [h])).
Proof.
  intros Hh.
  assert (∀ e, In e (Filter (i ++ [h]))
             ↔ h = e ∨ In e (filterSeen ({[Name h]} ∪ ∅) (rev i))) as Hin.
  { intros e. rewrite Filter_In, rev_unit. cbn [filterSeen].
    rewrite bool_decide_eq_false_2 by apply not_elem_of_empty.
    by rewrite Hh. }
  split.
  - apply Find_NoDup; [apply Filter_NoDup| |done]. apply Hin. by left.
  - intros e He%Filter_In Hne. apply Hin. right.
    apply (filterSeen_more (Name h) ∅); [|done..].
    intros x. rewrite elem_of_union, elem_of_singleton. tauto.
Qed.

(** A tombstone hides the entry of its name and nothing else. *)
Lemma Filter_tombstone i t e :
  deleted t = true →
  In e (Filter (i ++ [t])) ↔ In e (Filter i) ∧ Name e ≠ Name t.
Proof.
  intros Ht. rewrite !Filter_In, rev_unit. cbn [filterSeen].
  rewrite bool_decide_eq_false_2 by apply not_elem_of_empty. rewrite Ht.
  apply filterSeen_add.
Qed.

(** A live header takes the place of the entry of its name. *)
Lemma Filter_append_iff i h e :
  deleted h = false →
  In e (Filter (i ++ [h]))
  ↔ e = h ∨ (In e (Filter i) ∧ Name e ≠ Name h).
Proof.
  intros Hh. rewrite !Filter_In, rev_unit. cbn [filterSeen].
  rewrite bool_decide_eq_false_2 by apply not_elem_of_empty. rewrite Hh.
  cbn [In]. rewrite filterSeen_add. split; intros [?|?]; auto.
Qed.

Lemma getIndex_Filter fs index :
  getIndex fs = Ok index →
  ∃ w, rw fs = Some w ∧ index_fault (underlying fs) = None
       ∧ index = Filter (base w ++ written w).
Proof.
  unfold getIndex, rw_Index. destruct (rw fs) as [w|]; [|done].
  destruct (index_fault (underlying fs)); [done|]. intros [= <-].
  by exists w.
Qed.

Lemma getIndex_NoDup fs index :
  getIndex fs = Ok index → NoDup (Name <$> index).
Proof. intros (w & _ & _ & ->)%getIndex_Filter. apply Filter_NoDup. Qed.

Lemma foldl_latest_spec es t0 :
  (t0 <= foldl latest t0 es)%Z
  ∧ (∀ e, In e es → (ModTime e <= foldl latest t0 es)%Z)
  ∧ (foldl latest t0 es = t0
     ∨ ∃ e, In e es ∧ ModTime e = foldl latest t0 es).
Proof.
  revert t0. induction es as [|x es IH]; intros t0; simpl.
  { split; [lia|]. split; [by intros ? []|by left]. }
  destruct (IH (latest t0 x)) as (Hle & Hall & Hatt).
  assert (t0 <= latest t0 x ∧ ModTime x <= latest t0 x
          ∧ (latest t0 x = t0 ∨ latest t0 x = ModTime x))%Z as (H1 & H2 & H3).
  { unfold latest, Before. destruct (Z.ltb_spec t0 (ModTime x)); lia. }
  split; [lia|]. split.
  - intros e [<-|He]; [lia|by apply Hall].
  - destruct Hatt as [Heq|(e & He & Hmt)].
    + destruct H3 as [H3|H3]; [left; congruence|].
      right. exists x. split; [by left|congruence].
    + right. exists e. split; [by right|done].
Qed.

(** ** Stat and Remove on an open session *)

Section OpenSession.

(** The session opens, or is open, and its index can be read: [index] is
    the filtered index that the operation works on. *)
Context (fs fs' : sivaFS) (index : Index).
Hypothesis Hopen : ensureOpen fs = (None, fs').
Hypothesis Hindex : getIndex fs' = Ok index.

(** C5, amended.  [Stat] resolves an exact entry of the filtered index
    before it tries to synthesize a directory: when an entry is named by
    the normalized path, its file info is returned, whatever lies below
    the path.  When the normalized path has no pattern operators, [Stat]
    fails with "not found" exactly when no entry has that name and none
    is an immediate child of the path.  The only other error of [Stat] on
    an open session is the one of a malformed pattern. *)
Theorem Stat_exact_match_first p :
  (∀ e, In e index → Name e = normalizePath p →
        Stat p fs = (Ok (newFileInfo e), fs'))
  ∧ (no_meta (normalizePath p) →
     (fst (Stat p fs) = Err ErrNotExist
      ↔ ∀ e, In e index →
             Name e ≠ normalizePath p
             ∧ ¬ child_of (normalizePath p) (Name e)))
  ∧ (∀ err, fst (Stat p fs) = Err err →
            err = ErrNotExist ∨ err = ErrBadPattern).
Proof.
  pose proof (getIndex_NoDup fs' index Hindex) as Hnd.
  pose proof (normalizePath_normalized p) as Hn.
  unfold Stat. rewrite Hopen, Hindex. split; [|split].
  - intros e He Hname. by rewrite (Find_NoDup index _ e Hnd He Hname).
  - intros Hm.
    destruct (Find index (normalizePath p)) as [e0|] eqn:Hfind.
    + apply Find_Some in Hfind as [Hin Hname]. split; [done|].
      intros Hall. by destruct (Hall e0 Hin) as [Hne _].
    + pose proof (proj1 (Find_None _ _) Hfind) as Hnone.
      pose proof (children_In index (normalizePath p)) as Hch.
      rewrite (getDir_spec _ _ Hn Hm).
      destruct (children index (normalizePath p)) as [|x l]; cbn [fst].
      * split; [|done]. intros _ e He. split; [by apply Hnone|].
        intros Hc. by apply (Hch e).
      * split; [done|]. intros Hall.
        destruct (proj1 (Hch x) (or_introl eq_refl)) as [Hin Hc].
        by destruct (Hall x Hin) as [_ []].
  - intros err. destruct (Find index (normalizePath p)); [done|].
    destruct (getDir index (normalizePath p)) as [[stat|]|err'] eqn:Hdir;
      cbn [fst]; intros [= <-]; [by left|].
    right. by apply getDir_error in Hdir.
Qed.

(** C3, amended.  For a normalized directory path [d] without pattern
    operators and without an exact entry, [Stat d] returns a synthetic
    directory if and only if some entry of the filtered index is an
    immediate child of [d] (its name is [d], a slash unless [d] is the
    root, and one more element), and fails with "not found" otherwise.
    The directory is named [d], or [.] when [d] is the root; its
    modification time is the latest of the zero time and the times of
    these children. *)
Theorem Stat_synthetic_directory d :
  normalized d → no_meta d → Find index d = None →
  let name := match d with [] => dot | _ :: _ => d end in
  let mt := foldl latest zeroTime (children index d) in
  ((∃ e, In e index ∧ child_of d (Name e))
   ↔ Stat d fs = (Ok (newDirFileInfo name mt), fs'))
  ∧ ((¬ ∃ e, In e index ∧ child_of d (Name e))
     ↔ Stat d fs = (Err ErrNotExist, fs'))
  ∧ (zeroTime <= mt)%Z
  ∧ (∀ e, In e index → child_of d (Name e) → (ModTime e <= mt)%Z)
  ∧ (mt = zeroTime
     ∨ ∃ e, In e index ∧ child_of d (Name e) ∧ ModTime e = mt).
Proof.
  intros Hn Hd Hfind name mt.
  assert (Clean (addTrailingSlash d) = name) as Hname.
  { subst name. destruct d as [|c d]; [done|]. by apply Clean_dir. }
  assert (((∃ e, In e index ∧ child_of d (Name e))
           ↔ Stat d fs = (Ok (newDirFileInfo name mt), fs'))
          ∧ ((¬ ∃ e, In e index ∧ child_of d (Name e))
             ↔ Stat d fs = (Err ErrNotExist, fs'))) as [H1 H2].
  { unfold Stat.
    rewrite Hn, Hopen, Hindex, Hfind, getDir_spec, Hname by done.
    rewrite <- children_nil. subst mt.
    destruct (children index d) as [|e l] eqn:Hc.
    - split; [|done]. split; [|done].
      intros (e & He%children_In). by rewrite Hc in He.
    - split; [|done]. split; [done|].
      intros _. exists e. apply children_In. rewrite Hc. by left. }
  split; [exact H1|]. split; [exact H2|].
  destruct (foldl_latest_spec (children index d) zeroTime)
    as (H0 & Hall & Hatt).
  split; [exact H0|]. split.
  - intros e He Hc. by apply Hall, children_In.
  - destruct Hatt as [Hz|(e & [He Hc]%children_In & Hmt)]; [by left|].
    right. by exists e.
Qed.

(** C4, amended.  With [q] the normalized path, free of pattern
    operators, [Remove] splits three ways: if the filtered index has an
    entry named [q], a tombstone header for [q] (mode 0, deleted flag) is
    appended and the call succeeds; otherwise, if some entry is an
    immediate child of [q], it fails with "directory not empty";
    otherwise it fails with "not found". *)
Theorem Remove_three_cases now w p :
  let q := normalizePath p in
  no_meta q → rw fs' = Some w → closed w = false →
  (∀ e, Find index q = Some e →
        Remove now p fs
        = (None,
           set_rw fs'
             (Some (appended w {| Name := q; ModTime := now; Mode := 0;
                                  Flags := FlagDeleted |}))))
  ∧ (Find index q = None →
     (∃ e, In e index ∧ child_of q (Name e)) →
     Remove now p fs = (Some (PathError "remove" q ENOTEMPTY), fs'))
  ∧ (Find index q = None →
     (¬ ∃ e, In e index ∧ child_of q (Name e)) →
     Remove now p fs = (Some ErrNotExist, fs')).
Proof.
  intros q Hq Hrw Hclosed.
  pose proof (normalizePath_normalized p) as Hn. fold q in Hn.
  unfold Remove. fold q. rewrite Hopen, Hindex. repeat split.
  - intros e ->. rewrite Hrw. unfold rw_WriteHeader. by rewrite Hclosed.
  - intros -> He. destruct (getDir_Some index q Hn Hq He) as [mt ->]. done.
  - intros -> He. apply (getDir_None index q Hn Hq) in He. by rewrite He.
Qed.

(** [MkdirAll] looks up the name as the caller spelled it. *)
Lemma MkdirAll_lookup filename perm :
  MkdirAll filename perm fs
  = (match Find index filename with
     | Some _ => Some (PathError "mkdir" filename ENOTDIR)
     | None => None
     end, fs').
Proof.
  unfold MkdirAll. rewrite Hopen, Hindex. by destruct (Find index filename).
Qed.

End OpenSession.

Lemma Stat_exact_match_first_witness :
  let fs := New (healthy [entry "a" 1; entry "a/b" 2]) (str "archive.siva") in
  let fs' := snd (ensureOpen fs) in
  let index := [entry "a" 1; entry "a/b" 2] in
  Stat (str "/a") fs = (Ok (newFileInfo (entry "a" 1)), fs')
  ∧ (fst (Stat (str "zz") fs) = Err ErrNotExist
     ↔ ∀ e, In e index →
            Name e ≠ normalizePath (str "zz")
            ∧ ¬ child_of (normalizePath (str "zz")) (Name e)).
Proof.
  intros fs fs' index.
  assert (ensureOpen fs = (None, fs')) as Hopen by reflexivity.
  assert (getIndex fs' = Ok index) as Hindex by (vm_compute; reflexivity).
  split.
  - apply (Stat_exact_match_first fs fs' index Hopen Hindex (str "/a"));
      [by left|reflexivity].
  - apply (Stat_exact_match_first fs fs' index Hopen Hindex (str "zz")).
    reflexivity.
Defined.

(** C5, as stated, fails for a path that reads as a malformed pattern: in
    an archive whose only entry is [x], no entry is named [[] and none is
    nested beneath it, so that neither a file nor a directory resolves,
    and [Stat] fails with the error of the pattern, not with "not
    found": [getDir] hands [[/*] to [Glob]. *)
Lemma Stat_bad_pattern :
  let fs := New (healthy [entry "x" 1]) (str "archive.siva") in
  let index := [entry "x" 1] in
  getIndex (snd (ensureOpen fs)) = Ok index
  ∧ Find index (normalizePath (str "[")) = None
  ∧ (∀ e, In e index → ¬ nested_below (normalizePath (str "[")) (Name e))
  ∧ fst (Stat (str "[") fs) = Err ErrBadPattern
  ∧ fst (Stat (str "[") fs) ≠ Err ErrNotExist.
Proof.
  intros fs index.
  assert (fst (Stat (str "[") fs) = Err ErrBadPattern) as Hstat
    by (vm_compute; reflexivity).
  split; [vm_compute; reflexivity|]. split; [vm_compute; reflexivity|].
  split; [|split; [exact Hstat|by rewrite Hstat]].
  intros e [<-|[]] (x & _ & Heq). discriminate Heq.
Qed.

(** C3, as stated, fails: in an archive whose only entry is [a/b/c], the
    normalized path [a] has no exact match and an entry nested beneath
    it, and [Stat] answers "not found": [getDir] looks for names that
    match [a/*], and the star does not cross a separator. *)
Lemma Stat_nested_not_found :
  let d := str "a" in
  let index := [entry "a/b/c" 5] in
  normalized d
  ∧ getIndex (snd (ensureOpen deep_fs)) = Ok index
  ∧ Find index d = None
  ∧ (∃ e, In e index ∧ nested_below d (Name e))
  ∧ fst (Stat d deep_fs) = Err ErrNotExist.
Proof.
  repeat split; try (vm_compute; reflexivity).
  exists (entry "a/b/c" 5). split; [by left|].
  exists (str "b/c"). by split.
Qed.

Lemma Stat_synthetic_directory_witness :
  let fs := New (healthy [entry "a/b" 3; entry "a/c" 7; entry "x" 1])
                (str "archive.siva") in
  let fs' := snd (ensureOpen fs) in
  let index := [entry "a/b" 3; entry "a/c" 7; entry "x" 1] in
  ((∃ e, In e index ∧ child_of (str "a") (Name e))
   ↔ Stat (str "a") fs = (Ok (newDirFileInfo (str "a") 7), fs'))
  ∧ ((¬ ∃ e, In e index ∧ child_of (str "a") (Name e))
     ↔ Stat (str "a") fs = (Err ErrNotExist, fs'))
  ∧ (zeroTime <= 7)%Z
  ∧ (∀ e, In e index → child_of (str "a") (Name e) → (ModTime e <= 7)%Z)
  ∧ (7 = zeroTime
     ∨ ∃ e, In e index ∧ child_of (str "a") (Name e) ∧ ModTime e = 7).
Proof.
  intros fs fs' index.
  assert (ensureOpen fs = (None, fs')) as Hopen by reflexivity.
  assert (getIndex fs' = Ok index) as Hindex by (vm_compute; reflexivity).
  apply (Stat_synthetic_directory fs fs' index Hopen Hindex (str "a"));
    vm_compute; reflexivity.
Defined.

(** C4, as stated, fails: in an archive whose only entry is [a/b/c], no
    entry is named [a], an entry is nested beneath [a], and [Remove]
    answers "not found", not "directory not empty". *)
Lemma Remove_nested_not_found :
  let index := [entry "a/b/c" 5] in
  getIndex (snd (ensureOpen deep_fs)) = Ok index
  ∧ Find index (normalizePath (str "a")) = None
  ∧ (∃ e, In e index ∧ nested_below (normalizePath (str "a")) (Name e))
  ∧ fst (Remove 9 (str "a") deep_fs) = Some ErrNotExist.
Proof.
  repeat split; try (vm_compute; reflexivity).
  exists (entry "a/b/c" 5). split; [by left|].
  exists (str "b/c"). by split.
Qed.

Lemma Remove_three_cases_witness :
  let fs := New (healthy [entry "a/b" 3; entry "x" 1]) (str "archive.siva") in
  let fs' := snd (ensureOpen fs) in
  fst (Remove 9 (str "/x") fs) = None
  ∧ Remove 9 (str "a") fs
    = (Some (PathError "remove" (str "a") ENOTEMPTY), fs')
  ∧ Remove 9 (str "zz") fs = (Some ErrNotExist, fs').
Proof.
  intros fs fs'.
  pose (index := [entry "a/b" 3; entry "x" 1]).
  pose (w := {| base := [entry "a/b" 3; entry "x" 1]; written := [];
                current := false; closed := false |}).
  assert (ensureOpen fs = (None, fs')) as Hopen by reflexivity.
  assert (getIndex fs' = Ok index) as Hindex by (vm_compute; reflexivity).
  assert (rw fs' = Some w) as Hrw by reflexivity.
  split; [|split].
  - pose proof (Remove_three_cases fs fs' index Hopen Hindex 9 w (str "/x")
                  eq_refl Hrw eq_refl) as (H1 & _ & _).
    rewrite (H1 (entry "x" 1)); [reflexivity|vm_compute; reflexivity].
  - pose proof (Remove_three_cases fs fs' index Hopen Hindex 9 w (str "a")
                  eq_refl Hrw eq_refl) as (_ & H2 & _).
    apply H2; [vm_compute; reflexivity|].
    exists (entry "a/b" 3). split; [by left|].
    exists (str "b"). split; reflexivity.
  - pose proof (Remove_three_cases fs fs' index Hopen Hindex 9 w (str "zz")
                  eq_refl Hrw eq_refl) as (_ & _ & H3).
    apply H3; [vm_compute; reflexivity|].
    intros He. apply (children_nil index (normalizePath (str "zz"))); [|exact He].
    vm_compute; reflexivity.
Defined.

(** ** OpenFile and the writer-busy flag *)

Lemma rw_Flush_closed w :
  closed w = false → closed (snd (rw_Flush w)) = false.
Proof. unfold rw_Flush. intros H. rewrite H. by destruct (current w). Qed.

Lemma Create_open now p fs w :
  rw fs = Some w → closed w = false → fileWriteModeOpen fs = false →
  Create now p fs
  = (Ok {| Filename := normalizePath p; kind := WriteHandle create_flags;
           isClosed := false |},
     set_fileWriteModeOpen
       (set_rw fs (Some (appended w (createHeader now (normalizePath p) 438))))
       true).
Proof.
  intros Hrw Hclosed Hflag. unfold Create, OpenFile.
  rewrite (ensureOpen_open fs w Hrw), Hflag.
  change (has (Z.lor (Z.lor O_WRONLY O_CREATE) O_TRUNC) O_CREATE) with true.
  change (has (Z.lor (Z.lor O_WRONLY O_CREATE) O_TRUNC) O_TRUNC) with true.
  cbn [negb andb]. unfold createFile.
  change (has (Z.lor (Z.lor O_WRONLY O_CREATE) O_TRUNC) O_RDWR) with false.
  change (has (Z.lor (Z.lor O_WRONLY O_CREATE) O_TRUNC) O_RDONLY) with false.
  cbn [orb]. rewrite Hrw. unfold rw_WriteHeader. by rewrite Hclosed.
Qed.

(** C1, as stated, fails: with the write handle of a previous [Create]
    still open, an [OpenFile] with [O_CREATE] and without [O_TRUNC] fails
    with [ErrNotSupported]; the flag combination is rejected before the
    writer-busy flag is read. *)
Lemma OpenFile_busy_without_trunc :
  let flag := Z.lor O_WRONLY O_CREATE in
  fileWriteModeOpen busy_fs = true
  ∧ has flag O_CREATE = true
  ∧ OpenFile 2 (str "f") flag 438 busy_fs = (Err ErrNotSupported, busy_fs)
  ∧ fst (OpenFile 2 (str "f") flag 438 busy_fs)
    ≠ Err ErrFileWriteModeAlreadyOpen.
Proof. by repeat split. Qed.

(** C1, amended.  While the writer-busy flag is set, an [OpenFile] with
    [O_CREATE] and [O_TRUNC] fails with [ErrFileWriteModeAlreadyOpen] as
    soon as the session is open, and writes no header: the state is the
    one [ensureOpen] leaves, the given state when the session was open.
    With [O_CREATE] and without [O_TRUNC] it fails with
    [ErrNotSupported].  Closing a write handle opened with [O_WRONLY],
    while the session is open, clears the flag; a [Create] that follows
    succeeds when the writer is not closed, and fails with
    [ErrClosedWriter] when it is.  When the session is not open, closing
    the handle changes nothing and the flag stays set. *)
Theorem OpenFile_writer_busy now p flag mode fs :
  fileWriteModeOpen fs = true → has flag O_CREATE = true →
  (has flag O_TRUNC = false →
   OpenFile now p flag mode fs = (Err ErrNotSupported, fs))
  ∧ (has flag O_TRUNC = true →
     (∀ fs', ensureOpen fs = (None, fs') →
        OpenFile now p flag mode fs = (Err ErrFileWriteModeAlreadyOpen, fs'))
     ∧ (∀ w, rw fs = Some w →
        OpenFile now p flag mode fs = (Err ErrFileWriteModeAlreadyOpen, fs)))
  ∧ (∀ h hflag w now' p',
       rw fs = Some w →
       kind h = WriteHandle hflag → has hflag O_WRONLY = true →
       isClosed h = false →
       ∃ err h' fs2,
         file_Close h fs = (err, h', fs2)
         ∧ isClosed h' = true
         ∧ fileWriteModeOpen fs2 = false
         ∧ (closed w = false → ∃ h2 fs3, Create now' p' fs2 = (Ok h2, fs3))
         ∧ (closed w = true →
            Create now' p' fs2 = (Err ErrClosedWriter, fs2)))
  ∧ (∀ h hflag,
       rw fs = None → kind h = WriteHandle hflag → isClosed h = false →
       ∃ h', file_Close h fs = (None, h', fs) ∧ isClosed h' = true).
Proof.
  intros Hbusy Hcreate. split; [|split; [|split]].
  - intros Htrunc. unfold OpenFile. by rewrite Hcreate, Htrunc.
  - intros Htrunc.
    assert (∀ fs', ensureOpen fs = (None, fs') →
              OpenFile now p flag mode fs
              = (Err ErrFileWriteModeAlreadyOpen, fs')) as Hgen.
    { intros fs' Hopen. unfold OpenFile.
      rewrite Hcreate, Htrunc, Hopen. cbn [negb andb].
      by rewrite (ensureOpen_flag _ _ _ Hopen), Hbusy. }
    split; [done|]. intros w Hrw. apply Hgen. by eapply ensureOpen_open.
  - intros h hflag w now' p' Hrw Hkind Hwronly Hh.
    unfold file_Close, closeFunc. rewrite Hh, Hkind, Hrw, Hwronly. cbn [orb].
    destruct (rw_Flush w) as [err w'] eqn:Hflush.
    eexists err, _, _. split; [done|]. split; [done|]. split; [done|].
    split.
    + intros Hclosed.
      assert (closed w' = false) as Hclosed'.
      { pose proof (rw_Flush_closed w Hclosed) as Hw. by rewrite Hflush in Hw. }
      eexists _, _. by apply (Create_open now' p' _ w').
    + intros Hclosed.
      assert (w' = w) as ->.
      { unfold rw_Flush in Hflush. rewrite Hclosed in Hflush. congruence. }
      unfold Create, OpenFile.
      change (has _ O_CREATE && negb (has _ O_TRUNC)) with false. cbn match.
      set (fs2 := set_rw _ _).
      rewrite (ensureOpen_open fs2 w eq_refl).
      change (has _ O_CREATE) with true. cbn match.
      unfold createFile, rw_WriteHeader.
      change (has _ O_RDWR || has _ O_RDONLY) with false.
      cbn [fileWriteModeOpen rw fs2 set_rw set_fileWriteModeOpen].
      by rewrite Hclosed.
  - intros h hflag Hrw Hkind Hh.
    unfold file_Close, closeFunc. rewrite Hh, Hkind, Hrw. by eexists.
Qed.

Lemma OpenFile_writer_busy_witness :
  OpenFile 2 (str "f") create_flags 438 busy_fs
  = (Err ErrFileWriteModeAlreadyOpen, busy_fs)
  ∧ ∃ err h' fs2,
      file_Close busy_handle busy_fs = (err, h', fs2)
      ∧ isClosed h' = true
      ∧ fileWriteModeOpen fs2 = false
      ∧ ∃ h2 fs3, Create 3 (str "g") fs2 = (Ok h2, fs3).
Proof.
  pose proof (OpenFile_writer_busy 2 (str "f") create_flags 438 busy_fs
                eq_refl eq_refl) as (_ & Hbusy & Hclose & _).
  split.
  - destruct (Hbusy eq_refl) as [_ Hopen].
    apply (Hopen (appended {| base := []; written := []; current := false;
                              closed := false |}
                           (createHeader 1 (str "w") 438))).
    reflexivity.
  - destruct (Hclose busy_handle create_flags
                (appended {| base := []; written := []; current := false;
                             closed := false |}
                          (createHeader 1 (str "w") 438))
                3 (str "g") eq_refl eq_refl eq_refl eq_refl)
      as (err & h' & fs2 & Hc & Hh' & Hflag & Hok & _).
    exists err, h', fs2. split; [exact Hc|]. split; [exact Hh'|].
    split; [exact Hflag|]. apply Hok. reflexivity.
Defined.

Lemma OpenFile_ensureOpen now p flag mode fs fs' :
  ensureOpen fs = (None, fs') →
  has flag O_CREATE && negb (has flag O_TRUNC) = false →
  OpenFile now p flag mode fs = OpenFile now p flag mode fs'.
Proof.
  intros Hopen Hgate. destruct (ensureOpen_rw fs fs' Hopen) as [w Hrw].
  unfold OpenFile. by rewrite Hgate, Hopen, (ensureOpen_open fs' w Hrw).
Qed.

(** ** Creating a file where a directory is, and the reverse *)

(** C2, as stated, fails in both directions: [Create] of [a] succeeds
    although [a/b] is in the archive, and afterwards [a] is a file for
    [Stat] while [getDir] still synthesizes the directory [a]; [Create]
    of [a/b] succeeds although [a] is an entry. *)
Lemma Create_over_directory :
  let fs := New (healthy [entry "a/b" 3]) (str "archive.siva") in
  let fs' := snd (Create 9 (str "a") fs) in
  let gs := New (healthy [entry "a" 3]) (str "archive.siva") in
  nested_below (str "a") (Name (entry "a/b" 3))
  ∧ fst (Create 9 (str "a") fs)
    = Ok {| Filename := str "a"; kind := WriteHandle create_flags;
            isClosed := false |}
  ∧ fst (Stat (str "a") fs') = Ok (newFileInfo (createHeader 9 (str "a") 438))
  ∧ (∃ index', getIndex fs' = Ok index'
               ∧ getDir index' (str "a")
                 = Ok (Some (newDirFileInfo (str "a") 3)))
  ∧ fst (Create 9 (str "a/b") gs)
    = Ok {| Filename := str "a/b"; kind := WriteHandle create_flags;
            isClosed := false |}.
Proof.
  split; [exists (str "b"); by split|].
  split; [vm_compute; reflexivity|].
  split; [vm_compute; reflexivity|].
  split; [|vm_compute; reflexivity].
  exists [entry "a/b" 3; createHeader 9 (str "a") 438].
  split; vm_compute; reflexivity.
Qed.

(** C2, amended.  [Create] looks nothing up in the index: once the
    session is open, the writer is not closed and no write handle is
    open, creating a file at [p] succeeds whatever entries the index
    holds, nested below [p] or named like a directory prefix of [p].  The
    header is appended; afterwards the normalized path resolves to the
    new entry, and every other entry of the filtered index is still
    there: a file and a synthetic directory then share the path. *)
Theorem Create_checks_no_conflict now p fs fs' w index :
  let q := normalizePath p in
  let h := createHeader now q 438 in
  let fs'' := set_fileWriteModeOpen (set_rw fs' (Some (appended w h))) true in
  ensureOpen fs = (None, fs') → rw fs' = Some w → closed w = false →
  fileWriteModeOpen fs = false → getIndex fs' = Ok index →
  Create now p fs
  = (Ok {| Filename := q; kind := WriteHandle create_flags;
           isClosed := false |}, fs'')
  ∧ ∃ index', getIndex fs'' = Ok index'
              ∧ Find index' q = Some h
              ∧ ∀ e, In e index → Name e ≠ q → In e index'.
Proof.
  intros q h fs'' Hopen Hrw Hclosed Hflag Hindex. split.
  - unfold Create.
    rewrite (OpenFile_ensureOpen now p (Z.lor (Z.lor O_WRONLY O_CREATE) O_TRUNC)
               438 fs fs' Hopen eq_refl).
    apply Create_open; [done..|].
    by rewrite (ensureOpen_flag _ _ _ Hopen).
  - unfold getIndex, rw_Index in *. rewrite Hrw in Hindex.
    subst fs''. cbn [rw underlying set_rw set_fileWriteModeOpen appended
                     base written].
    destruct (index_fault (underlying fs')); [done|].
    injection Hindex as <-. eexists. split; [done|].
    rewrite app_assoc.
    apply (Filter_append (base w ++ written w) h). done.
Qed.

Lemma Create_checks_no_conflict_witness :
  let fs := New (healthy [entry "a/b" 3]) (str "archive.siva") in
  let h := createHeader 9 (str "a") 438 in
  ∃ fs'',
    Create 9 (str "/a") fs
    = (Ok {| Filename := str "a"; kind := WriteHandle create_flags;
             isClosed := false |}, fs'')
    ∧ ∃ index', getIndex fs'' = Ok index'
                ∧ Find index' (str "a") = Some h
                ∧ ∀ e, In e [entry "a/b" 3] → Name e ≠ str "a" → In e index'.
Proof.
  intros fs h. eexists.
  apply (Create_checks_no_conflict 9 (str "/a") fs (snd (ensureOpen fs))
           {| base := [entry "a/b" 3]; written := []; current := false;
              closed := false |} [entry "a/b" 3]);
    vm_compute; reflexivity.
Defined.

(** ** The flag combinations of OpenFile *)

Lemma has_RDONLY flag : has flag O_RDONLY = false.
Proof. unfold has, O_RDONLY. by rewrite Z.land_0_r. Qed.

Lemma has_lor_APPEND flag bit :
  Z.land O_APPEND bit = 0 → has (Z.lor flag O_APPEND) bit = has flag bit.
Proof.
  intros Hbit. unfold has. by rewrite Z.land_lor_distr_l, Hbit, Z.lor_0_r.
Qed.

(** C6, as stated, fails: [O_APPEND] is read nowhere.  A read-only open
    with [O_APPEND] returns a read handle, and a create with truncate,
    write-only and [O_APPEND] returns a write handle. *)
Lemma OpenFile_append_accepted :
  let fs := New (healthy [entry "x" 1]) (str "archive.siva") in
  has (Z.lor O_RDONLY O_APPEND) O_APPEND = true
  ∧ fst (OpenFile 2 (str "x") (Z.lor O_RDONLY O_APPEND) 0 fs)
    = Ok {| Filename := str "x"; kind := ReadHandle (entry "x" 1);
            isClosed := false |}
  ∧ has (Z.lor create_flags O_APPEND) O_APPEND = true
  ∧ fst (OpenFile 2 (str "y") (Z.lor create_flags O_APPEND) 438 fs)
    = Ok {| Filename := str "y";
            kind := WriteHandle (Z.lor create_flags O_APPEND);
            isClosed := false |}.
Proof. repeat split; vm_compute; reflexivity. Qed.

(** C6, amended.  Once the session is open and no write handle is open,
    [OpenFile] fails with [ErrNotSupported] on every request that is
    create without truncate, that has [O_RDWR], or that is write-only
    without create.  A create with truncate and write-only and without
    [O_RDWR] gets its write handle, and a request without create, write
    or read-write gets its read handle when the entry exists.  [O_APPEND]
    is not read: it changes none of this. *)
Theorem OpenFile_flag_gates now p flag mode fs fs' :
  ensureOpen fs = (None, fs') → fileWriteModeOpen fs = false →
  (unsupported flag = true →
   fst (OpenFile now p flag mode fs) = Err ErrNotSupported)
  ∧ (unsupported flag = false →
     has flag O_CREATE = true → has flag O_WRONLY = true →
     ∀ w, rw fs' = Some w → closed w = false →
       fst (OpenFile now p flag mode fs)
       = Ok {| Filename := normalizePath p; kind := WriteHandle flag;
               isClosed := false |})
  ∧ (unsupported flag = false → has flag O_CREATE = false →
     ∀ index e, getIndex fs' = Ok index →
       Find index (normalizePath p) = Some e →
       get_fault (underlying fs') = None →
       OpenFile now p flag mode fs
       = (Ok {| Filename := normalizePath p; kind := ReadHandle e;
                isClosed := false |}, fs'))
  ∧ unsupported (Z.lor flag O_APPEND) = unsupported flag.
Proof.
  intros Hopen Hflag.
  pose proof (ensureOpen_flag _ _ _ Hopen) as Hflag'. rewrite Hflag in Hflag'.
  unfold OpenFile, unsupported. rewrite Hopen, Hflag'.
  unfold createFile, openFile. rewrite has_RDONLY.
  repeat split.
  - destruct (has flag O_CREATE), (has flag O_TRUNC), (has flag O_RDWR),
      (has flag O_WRONLY); simpl; try done.
  - intros Hun Hc Hw w Hrw Hclosed. rewrite Hc in *.
    destruct (has flag O_TRUNC), (has flag O_RDWR); simpl in *; try done.
    rewrite Hrw. unfold rw_WriteHeader. by rewrite Hclosed.
  - intros Hun Hc index e Hindex Hfind Hget. rewrite Hc in *.
    destruct (has flag O_RDWR), (has flag O_WRONLY); simpl in *; try done.
    by rewrite Hindex, Hfind, Hget.
  - by rewrite !has_lor_APPEND.
Qed.

Lemma OpenFile_flag_gates_witness :
  let fs := New (healthy [entry "x" 1]) (str "archive.siva") in
  fst (OpenFile 2 (str "x") O_RDWR 0 fs) = Err ErrNotSupported
  ∧ fst (OpenFile 2 (str "x") (Z.lor O_WRONLY O_APPEND) 0 fs)
    = Err ErrNotSupported
  ∧ fst (OpenFile 2 (str "y") create_flags 438 fs)
    = Ok {| Filename := str "y"; kind := WriteHandle create_flags;
            isClosed := false |}
  ∧ OpenFile 2 (str "x") O_RDONLY 0 fs
    = (Ok {| Filename := str "x"; kind := ReadHandle (entry "x" 1);
             isClosed := false |}, snd (ensureOpen fs)).
Proof.
  intros fs.
  assert (ensureOpen fs = (None, snd (ensureOpen fs))) as Hopen by reflexivity.
  split; [|split; [|split]].
  - by apply (OpenFile_flag_gates 2 (str "x") O_RDWR 0 fs _ Hopen eq_refl).
  - by apply (OpenFile_flag_gates 2 (str "x") (Z.lor O_WRONLY O_APPEND) 0 fs
                _ Hopen eq_refl).
  - pose proof (OpenFile_flag_gates 2 (str "y") create_flags 438 fs _
                  Hopen eq_refl) as (_ & H & _).
    apply (H eq_refl eq_refl eq_refl
             {| base := [entry "x" 1]; written := []; current := false;
                closed := false |}); reflexivity.
  - pose proof (OpenFile_flag_gates 2 (str "x") O_RDONLY 0 fs _
                  Hopen eq_refl) as (_ & _ & H & _).
    apply (H eq_refl eq_refl [entry "x" 1] (entry "x" 1));
      vm_compute; reflexivity.
Defined.

(** ** A header write that fails *)

Lemma rw_WriteHeader_error w h e :
  fst (rw_WriteHeader w h) = Some e → e = ErrClosedWriter ∧ closed w = true.
Proof.
  unfold rw_WriteHeader. destruct (closed w); simpl; [|done].
  by intros [= <-].
Qed.

(** C10.  When the header write of a create fails, [OpenFile] returns the
    error of the writer and leaves the filesystem as it was: the
    writer-busy flag is still clear, since [createFile] sets it only on
    the way out of a successful call, and a create that follows is not
    turned down with [ErrFileWriteModeAlreadyOpen]. *)
Theorem createFile_header_failure now p flag mode fs w e :
  rw fs = Some w →
  fst (rw_WriteHeader w (createHeader now (normalizePath p) mode)) = Some e →
  fileWriteModeOpen fs = false →
  has flag O_CREATE = true → has flag O_TRUNC = true →
  has flag O_RDWR = false →
  createFile now (normalizePath p) flag mode fs = (Err e, fs)
  ∧ OpenFile now p flag mode fs = (Err e, fs)
  ∧ fileWriteModeOpen (snd (OpenFile now p flag mode fs)) = false
  ∧ ∀ now' p' flag' mode',
      has flag' O_CREATE = true →
      fst (OpenFile now' p' flag' mode' (snd (OpenFile now p flag mode fs)))
      ≠ Err ErrFileWriteModeAlreadyOpen.
Proof.
  intros Hrw Hfail Hflag Hcreate Htrunc Hrdwr.
  apply rw_WriteHeader_error in Hfail as [-> Hclosed].
  assert (∀ h, rw_WriteHeader w h = (Some ErrClosedWriter, w)) as Hwh.
  { intros h. unfold rw_WriteHeader. by rewrite Hclosed. }
  assert (createFile now (normalizePath p) flag mode fs
          = (Err ErrClosedWriter, fs)) as Hcf.
  { unfold createFile. rewrite Hrdwr, has_RDONLY, Hrw, Hwh. cbn [orb].
    f_equal. by apply set_rw_same. }
  assert (OpenFile now p flag mode fs = (Err ErrClosedWriter, fs)) as Hof.
  { unfold OpenFile.
    by rewrite Hcreate, Htrunc, (ensureOpen_open fs w Hrw), Hflag. }
  split; [done|]. split; [done|]. rewrite Hof. split; [done|].
  intros now' p' flag' mode' Hcreate'. cbn [snd]. unfold OpenFile.
  rewrite Hcreate', (ensureOpen_open fs w Hrw), Hflag.
  destruct (has flag' O_TRUNC); cbn [negb andb]; [|done].
  unfold createFile. destruct (has flag' O_RDWR || has flag' O_RDONLY); [done|].
  by rewrite Hrw, Hwh.
Qed.

Lemma createFile_header_failure_witness :
  OpenFile 7 (str "f") create_flags 438 stuck_fs = (Err ErrClosedWriter, stuck_fs)
  ∧ fileWriteModeOpen (snd (OpenFile 7 (str "f") create_flags 438 stuck_fs))
    = false
  ∧ fst (OpenFile 8 (str "g") create_flags 438
           (snd (OpenFile 7 (str "f") create_flags 438 stuck_fs)))
    ≠ Err ErrFileWriteModeAlreadyOpen.
Proof.
  pose proof (createFile_header_failure 7 (str "f") create_flags 438 stuck_fs
                {| base := []; written := [createHeader 1 (str "w") 438];
                   current := true; closed := true |} ErrClosedWriter
                eq_refl eq_refl eq_refl eq_refl eq_refl eq_refl)
    as (_ & H1 & H2 & H3).
  split; [exact H1|]. split; [exact H2|].
  apply (H3 8 (str "g") create_flags 438). reflexivity.
Defined.

(** ** Opening and closing the session *)

Lemma ensureClosed_closed fs : rw fs = None → ensureClosed fs = (None, fs).
Proof. unfold ensureClosed. by intros ->. Qed.

Lemma ensureClosed_closed_writer fs w :
  rw fs = Some w → closed w = true →
  ensureClosed fs = (Some ErrClosedWriter, fs).
Proof.
  destruct fs as [b pth f0 r flag]. cbn [rw]. intros -> Hclosed.
  unfold ensureClosed, rw_Close. cbn [rw underlying]. by rewrite Hclosed.
Qed.

Lemma Sync_Sync fs : snd (Sync (snd (Sync fs))) = snd (Sync fs).
Proof.
  unfold Sync. destruct (rw fs) as [w|] eqn:Hrw.
  - destruct (closed w) eqn:Hclosed.
    + rewrite (ensureClosed_closed_writer fs w Hrw Hclosed). cbn [snd].
      by rewrite (ensureClosed_closed_writer fs w Hrw Hclosed).
    + assert (∃ fs1, ensureClosed fs = (fst (ensureClosed fs), fs1)
                     ∧ (rw fs1 = None
                        ∨ ∃ w1, rw fs1 = Some w1 ∧ closed w1 = true))
        as (fs1 & Heq & Hfs1).
      { unfold ensureClosed, rw_Close. rewrite Hrw, Hclosed.
        destruct (written w); [|destruct (write_fault (underlying fs))];
          cbn [fst]; eexists; (split; [done|]); cbn [rw]; eauto. }
      rewrite Heq. cbn [snd]. destruct Hfs1 as [Hnone|(w1 & Hw1 & Hc1)].
      * by rewrite ensureClosed_closed.
      * by rewrite (ensureClosed_closed_writer fs1 w1).
  - rewrite (ensureClosed_closed fs Hrw). cbn [snd].
    by rewrite (ensureClosed_closed fs Hrw).
Qed.

Lemma ensureOpen_ensureOpen fs :
  snd (ensureOpen (snd (ensureOpen fs))) = snd (ensureOpen fs).
Proof.
  destruct (ensureOpen fs) as [[err|] fs'] eqn:Hopen; cbn [snd].
  - unfold ensureOpen in Hopen.
    destruct (rw fs) eqn:Hrw; [done|].
    destruct (open_fault (underlying fs)) eqn:Hof.
    { injection Hopen as <- <-. unfold ensureOpen. by rewrite Hrw, Hof. }
    destruct (NewReaderWriter (underlying fs)) eqn:Hnew; [done|].
    injection Hopen as <- <-. unfold ensureOpen. by rewrite Hrw, Hof, Hnew.
  - destruct (ensureOpen_rw fs fs' Hopen) as [w Hrw].
    by rewrite (ensureOpen_open fs' w Hrw).
Qed.

(** C9.  [ensureOpen] on an open session and [ensureClosed] on a closed
    one change nothing and succeed; a second [Sync] leaves the state the
    first one left, and so does a second [ensureOpen]. *)
Theorem ensure_idempotent :
  (∀ fs w, rw fs = Some w → ensureOpen fs = (None, fs))
  ∧ (∀ fs, rw fs = None → ensureClosed fs = (None, fs) ∧ Sync fs = (None, fs))
  ∧ (∀ fs, snd (Sync (snd (Sync fs))) = snd (Sync fs))
  ∧ (∀ fs, snd (ensureOpen (snd (ensureOpen fs))) = snd (ensureOpen fs)).
Proof.
  split; [|split; [|split]].
  - intros fs w. apply ensureOpen_open.
  - intros fs Hrw. split; by apply ensureClosed_closed.
  - apply Sync_Sync.
  - apply ensureOpen_ensureOpen.
Qed.

Lemma ensure_idempotent_witness :
  let fs := snd (ensureOpen (New (healthy [entry "x" 1]) (str "archive.siva"))) in
  ensureOpen fs = (None, fs)
  ∧ Sync (snd (Sync fs)) = (None, snd (Sync fs))
  ∧ snd (Sync (snd (Sync busy_fs))) = snd (Sync busy_fs)
  ∧ snd (Sync (snd (Sync stuck_fs))) = snd (Sync stuck_fs).
Proof.
  intros fs.
  destruct ensure_idempotent as (Hopen & Hclosed & Hsync & _).
  split; [|split; [|split]].
  - apply (Hopen fs {| base := [entry "x" 1]; written := []; current := false;
                       closed := false |}). reflexivity.
  - apply (Hclosed (snd (Sync fs))). reflexivity.
  - apply Hsync.
  - apply Hsync.
Defined.

(** ** MkdirAll *)

(** C8.  With the file [a] in the archive, [MkdirAll] fails with
    [ENOTDIR] on [a] and succeeds on [/a], the spelling with a leading
    slash of the same file: [Stat] and [Open] of [/a] reach the file, for
    they normalize the path and [MkdirAll] does not. *)
Theorem MkdirAll_leading_slash :
  let fs := New (healthy [entry "a" 1]) (str "archive.siva") in
  fst (MkdirAll (str "a") 493 fs) = Some (PathError "mkdir" (str "a") ENOTDIR)
  ∧ fst (MkdirAll (str "/a") 493 fs) = None
  ∧ fst (Stat (str "/a") fs) = Ok (newFileInfo (entry "a" 1))
  ∧ fst (Open 2 (str "/a") fs)
    = Ok {| Filename := str "a"; kind := ReadHandle (entry "a" 1);
            isClosed := false |}.
Proof. repeat split; vm_compute; reflexivity. Qed.

(** ** ReadDir *)

Lemma contains_sep_app s t :
  contains_sep (s ++ t) = contains_sep s || contains_sep t.
Proof. apply existsb_app. Qed.

Lemma upto_last_sep_free y : contains_sep y = false → upto_last_sep y = [].
Proof. destruct y as [|c y]; [done|]. cbn [upto_last_sep]. by intros ->. Qed.

Lemma upto_last_sep_app s y :
  contains_sep y = false →
  upto_last_sep (s ++ Separator :: y) = s ++ [Separator].
Proof.
  intros Hy. induction s as [|c s IH].
  - cbn [app upto_last_sep]. cbn [contains_sep existsb].
    rewrite is_sep_Separator. cbn [orb]. by rewrite upto_last_sep_free.
  - change ((c :: s) ++ Separator :: y) with (c :: (s ++ Separator :: y)).
    cbn [upto_last_sep]. rewrite IH.
    change (c :: s ++ Separator :: y) with ((c :: s) ++ Separator :: y).
    rewrite contains_sep_app. cbn [contains_sep existsb].
    rewrite is_sep_Separator. by rewrite orb_true_r.
Qed.

(** The directory of an entry two levels below a normalized [d] is the
    child directory of [d] that holds it, when the element between them
    is one that [Clean] keeps. *)
Lemma Dir_grandchild d x y :
  normalized d → plain x → contains_sep y = false →
  Dir (addTrailingSlash d ++ x ++ Separator :: y) = addTrailingSlash d ++ x.
Proof.
  intros Hd Hx Hy. unfold Dir.
  rewrite app_assoc, upto_last_sep_app by done.
  destruct (decide (d = [])) as [->|Hne].
  - cbn [addTrailingSlash app].
    change (x ++ [Separator]) with (x ++ Separator :: join_sep [[]]).
    rewrite <- (join_sep_cons x [] []).
    change [x; []] with ([x] ++ [[]]).
    rewrite (Clean_relative x [] [[]]);
      [|constructor; [exact Hx|constructor]
       |constructor; [done|constructor]].
    cbn. pose proof (plain_head x Hx) as (c & x' & -> & _). done.
  - rewrite addTrailingSlash_normalized by done.
    apply normalized_elems in Hd as (cs & Hcs & ->).
    destruct cs as [|c cs]; [done|].
    assert (Forall plain (c :: (cs ++ [x]))) as Hall.
    { change (c :: cs ++ [x]) with ((c :: cs) ++ [x]).
      apply Forall_app. split; [done|]. constructor; [done|constructor]. }
    assert (join_sep (c :: (cs ++ [x]))
            = (join_sep (c :: cs) ++ [Separator]) ++ x) as Hjoin.
    { change (c :: cs ++ [x]) with ((c :: cs) ++ [x]).
      rewrite join_sep_app by done. by rewrite <- app_assoc. }
    assert (((join_sep (c :: cs) ++ [Separator]) ++ x) ++ [Separator]
            = join_sep ((c :: (cs ++ [x])) ++ [[]])) as ->.
    { rewrite join_sep_app by done. by rewrite Hjoin. }
    rewrite (Clean_relative c (cs ++ [x]) [[]]);
      [|done|constructor; [done|constructor]].
    cbn [clean_elems bool_decide]. simpl bool_decide. cbv iota. cbn [orb].
    rewrite rev_involutive, Hjoin.
    destruct (join_sep (c :: cs)) as [|a l]; [done|]. done.
Qed.

Lemma noteDir_fold es :
  ∀ n,
    (foldl noteDir ∅ es !! n = None ↔ ∀ e, In e es → Dir (Name e) ≠ n)
    ∧ (∀ mt, foldl noteDir ∅ es !! n = Some mt → is_latest es n mt).
Proof.
  induction es as [|e es IH] using rev_ind; intros n.
  - cbn [foldl]. rewrite lookup_empty. split; [by split|]. by intros mt.
  - rewrite foldl_app. cbn [foldl].
    set (m := foldl noteDir ∅ es) in *.
    destruct (IH n) as [IHa IHb].
    assert (∀ mt, is_latest es n mt → Dir (Name e) ≠ n →
                  is_latest (es ++ [e]) n mt) as Hkeep.
    { intros mt [(e0 & He0 & Hn0 & Ht0) Hmax] Hne. split.
      - exists e0. rewrite in_app_iff. eauto.
      - intros e1 [He1|[<-|[]]]%in_app_iff Hn1; [eauto|done]. }
    destruct (decide (Dir (Name e) = n)) as [Heq|Hne].
    + assert (∀ mt, ModTime e <= mt →
                (∀ e0, In e0 es → Dir (Name e0) = n → ModTime e0 <= mt) →
                (mt = ModTime e ∨ ∃ e0, In e0 es ∧ Dir (Name e0) = n
                                        ∧ ModTime e0 = mt) →
                is_latest (es ++ [e]) n mt) as Hnew.
      { intros mt Hle Hmax Hex. split.
        - destruct Hex as [->|(e0 & He0 & Hn0 & Ht0)].
          + exists e. rewrite in_app_iff. split; [right; by left|done].
          + exists e0. rewrite in_app_iff. eauto.
        - intros e1 [He1|[<-|[]]]%in_app_iff Hn1; eauto. }
      unfold noteDir. rewrite Heq.
      destruct (m !! n) as [old|] eqn:Hold.
      * destruct (IHb old eq_refl) as [Hex Hmax].
        unfold Before. destruct (Z.ltb_spec old (ModTime e)) as [Hlt|Hge].
        -- rewrite lookup_insert_eq. split.
           ++ split; [done|]. intros Hno. exfalso.
              apply (Hno e); [|done]. rewrite in_app_iff. right. by left.
           ++ intros mt [= <-]. apply Hnew; [lia| |by left].
              intros e0 He0 Hn0. specialize (Hmax e0 He0 Hn0). lia.
        -- rewrite Hold. split.
           ++ split; [done|]. intros Hno. exfalso.
              apply (Hno e); [|done]. rewrite in_app_iff. right. by left.
           ++ intros mt [= <-]. apply Hnew; [lia|done|by right].
      * rewrite lookup_insert_eq. split.
        -- split; [done|]. intros Hno. exfalso.
           apply (Hno e); [|done]. rewrite in_app_iff. right. by left.
        -- intros mt [= <-]. apply Hnew; [lia| |by left].
           intros e0 He0 Hn0. by destruct (proj1 IHa eq_refl e0 He0).
    + assert (noteDir m e !! n = m !! n) as ->.
      { unfold noteDir. destruct (m !! Dir (Name e)); [|by rewrite lookup_insert_ne].
        destruct (Before _ _); [by rewrite lookup_insert_ne|done]. }
      split.
      * rewrite IHa. split.
        -- intros Hno e0 [He0|[<-|[]]]%in_app_iff; eauto.
        -- intros Hno e0 He0. apply Hno. rewrite in_app_iff. by left.
      * intros mt Hmt. apply Hkeep; [by apply IHb|done].
Qed.

Lemma is_latest_unique es n mt mt' :
  is_latest es n mt → is_latest es n mt' → mt = mt'.
Proof.
  intros [(e & He & Hn & Ht) Hmax] [(e' & He' & Hn' & Ht') Hmax'].
  specialize (Hmax e' He' Hn'). specialize (Hmax' e He Hn). lia.
Qed.

Lemma noteDir_lookup es n mt :
  foldl noteDir ∅ es !! n = Some mt ↔ is_latest es n mt.
Proof.
  destruct (noteDir_fold es n) as [Ha Hb]. split; [apply Hb|].
  intros Hl. destruct (foldl noteDir ∅ es !! n) as [mt'|] eqn:Hm.
  - f_equal. eapply is_latest_unique; [by apply Hb|done].
  - destruct Hl as [(e & He & Hn & _) _]. by destruct (proj1 Ha eq_refl e He).
Qed.

Lemma listFiles_spec index d :
  no_meta d → listFiles index d = Ok (newFileInfo <$> children index d).
Proof. intros Hd. unfold listFiles. by rewrite Glob_children. Qed.

Lemma listDirs_spec index d :
  no_meta d →
  listDirs index d
  = Ok ((λ '(dir, mt), newDirFileInfo dir mt)
          <$> map_to_list (foldl noteDir ∅ (grandchildren index d))).
Proof. intros Hd. unfold listDirs. by rewrite Glob_grandchildren. Qed.

(** C7, as stated, fails: in an archive whose only entry is [a/b/c/d],
    the element [b] follows [a] in the name of an entry, and [ReadDir] of
    [a] lists no directory: [listDirs] looks for names that match
    [a/*/*], two levels below [a] and no deeper. *)
Lemma ReadDir_deeper_not_listed :
  let index := [entry "a/b/c/d" 5] in
  getIndex (snd (ensureOpen deeper_fs)) = Ok index
  ∧ (∃ e, In e index ∧ nested_below (str "a/b") (Name e))
  ∧ fst (ReadDir (str "a") deeper_fs) = Ok [].
Proof.
  split; [vm_compute; reflexivity|]. split; [|vm_compute; reflexivity].
  exists (entry "a/b/c/d" 5). split; [by left|].
  exists (str "c/d"). by split.
Qed.

(** C7, amended.  For a normalized directory path [d] without pattern
    operators, [ReadDir d] lists, before the files, one synthetic
    directory for each distinct directory [Dir name] of the entries
    [d/x/y] of the filtered index, two levels below [d] and no deeper;
    its modification time is the latest among these entries.  The
    directory of [d/x/y] is [d/x] when [x] is an element that [Clean]
    keeps.  After [a/b/c] is created in an empty archive at time [t],
    [ReadDir] of [a] yields the synthetic directory [a/b] with
    modification time [t]. *)
Theorem ReadDir_child_directories fs fs' index d :
  normalized d → no_meta d →
  ensureOpen fs = (None, fs') → getIndex fs' = Ok index →
  (∃ dirs,
     ReadDir d fs = (Ok (dirs ++ (newFileInfo <$> children index d)), fs')
     ∧ NoDup (infoName <$> dirs)
     ∧ (∀ fi, In fi dirs → IsDir fi = true)
     ∧ (∀ n mt, In (newDirFileInfo n mt) dirs
                ↔ is_latest (grandchildren index d) n mt))
  ∧ (∀ e, In e (grandchildren index d)
          ↔ In e index ∧ grandchild_of d (Name e))
  ∧ (∀ x y, plain x → contains_sep y = false →
       Dir (addTrailingSlash d ++ x ++ Separator :: y)
       = addTrailingSlash d ++ x)
  ∧ (∀ t, fst (ReadDir (str "a")
                 (snd (Create t (str "a/b/c")
                         (New (healthy []) (str "archive.siva")))))
          = Ok [newDirFileInfo (str "a/b") t]).
Proof.
  intros Hn Hd Hopen Hindex. split; [|split; [|split]].
  - unfold ReadDir. rewrite Hn, Hopen, Hindex.
    rewrite listFiles_spec, listDirs_spec by done.
    set (m := foldl noteDir ∅ (grandchildren index d)).
    eexists. split; [done|]. split; [|split].
    + rewrite <- list_fmap_compose.
      rewrite (list_fmap_ext _ fst (map_to_list m)) by (by intros ? []).
      apply NoDup_fst_map_to_list.
    + intros fi [[n mt] [-> _]]%list_elem_of_In%list_elem_of_fmap. done.
    + intros n mt. rewrite <- noteDir_lookup. fold m.
      rewrite <- elem_of_map_to_list, <- list_elem_of_In, list_elem_of_fmap.
      split.
      * intros [[n' mt'] [[= -> ->] Hin]]. done.
      * intros Hin. by exists (n, mt).
  - intros e. apply grandchildren_In.
  - intros x y. by apply Dir_grandchild.
  - intros t. vm_compute. reflexivity.
Qed.

Lemma ReadDir_child_directories_witness :
  let fs := New (healthy [entry "a/b/c" 5; entry "a/b/d" 9; entry "a/e/f" 2;
                          entry "a/g" 4; entry "a/b/h/i" 11])
                (str "archive.siva") in
  ∃ dirs,
    ReadDir (str "a") fs
    = (Ok (dirs ++ [newFileInfo (entry "a/g" 4)]), snd (ensureOpen fs))
    ∧ NoDup (infoName <$> dirs)
    ∧ (∀ fi, In fi dirs → IsDir fi = true)
    ∧ (∀ n mt, In (newDirFileInfo n mt) dirs
               ↔ is_latest [entry "a/b/c" 5; entry "a/b/d" 9; entry "a/e/f" 2]
                           n mt).
Proof.
  intros fs.
  apply (ReadDir_child_directories fs (snd (ensureOpen fs))
           [entry "a/b/c" 5; entry "a/b/d" 9; entry "a/e/f" 2;
            entry "a/g" 4; entry "a/b/h/i" 11] (str "a"));
    vm_compute; reflexivity.
Defined.

(** ** The fuel of Match is enough

    [classRanges], [matchChunkFrom] and [MatchFrom] count
    their steps down; with the fuel that [matchChunk] and [Match] give
    them they always come to an answer. *)

Lemma DecodeRuneInString_width s :
  s ≠ [] → (1 ≤ snd (DecodeRuneInString s))%nat.
Proof.
  destruct s as [|c s]; [done|]. intros _. unfold DecodeRuneInString.
  repeat case_match; cbn [snd]; lia.
Qed.

Lemma getEsc_length chunk r nchunk :
  getEsc chunk = Ok (r, nchunk) → (length nchunk < length chunk)%nat.
Proof.
  unfold getEsc. destruct chunk as [|c rest]; [done|].
  destruct (_ || _); [done|].
  set (chunk2 := if bool_decide (c = "\"%char) then rest else c :: rest).
  assert (length chunk2 ≤ length (c :: rest))%nat as Hlen
    by (subst chunk2; case_match; simpl; lia).
  destruct chunk2 as [|x chunk3]; [done|].
  pose proof (DecodeRuneInString_width (x :: chunk3) ltac:(done)) as Hw.
  destruct (DecodeRuneInString (x :: chunk3)) as [r' n]. cbn [snd] in Hw.
  destruct (_ && _); [done|].
  destruct (drop n (x :: chunk3)) as [|y l] eqn:Hd; [done|].
  intros [= <- <-]. rewrite <- Hd, length_drop. simpl in *. lia.
Qed.

Lemma classRanges_fuel fuel :
  (∀ chunk r matched nrange,
     (2 * length chunk + 2 ≤ fuel)%nat →
     ∃ res, classRanges fuel chunk r matched nrange = Some res
            ∧ ∀ b rest, res = Ok (b, rest) →
                        (length rest < length chunk)%nat)
  ∧ (∀ chunk r matched nrange,
       (2 * length chunk + 1 ≤ fuel)%nat →
       ∃ res, classRange fuel chunk r matched nrange = Some res
              ∧ ∀ b rest, res = Ok (b, rest) →
                          (length rest < length chunk)%nat).
Proof.
  induction fuel as [|fuel [IH1 IH2]].
  - split; intros; lia.
  - assert (∀ chunk r matched nrange,
              (2 * length chunk + 1 ≤ S fuel)%nat →
              ∃ res, classRange (S fuel) chunk r matched nrange = Some res
                     ∧ ∀ b rest, res = Ok (b, rest) →
                                 (length rest < length chunk)%nat) as Hrange.
    { intros chunk r matched nrange Hfuel. cbn [classRange].
      destruct (getEsc chunk) as [[lo chunk1]|e] eqn:Hesc; [|by eexists].
      apply getEsc_length in Hesc.
      assert (∀ hi chunk2, (length chunk2 ≤ length chunk1)%nat →
                ∃ res,
                  classRanges fuel chunk2 r
                    (matched || match r with
                                | Some r => rune_le lo r && rune_le r hi
                                | None => false
                                end) (S nrange) = Some res
                  ∧ ∀ b rest, res = Ok (b, rest) →
                              (length rest < length chunk)%nat) as Hnext.
      { intros hi chunk2 Hlen.
        destruct (IH1 chunk2 r
                    (matched || match r with
                                | Some r => rune_le lo r && rune_le r hi
                                | None => false
                                end) (S nrange)) as (res & -> & Hres); [lia|].
        eexists. split; [done|]. intros b rest ->.
        specialize (Hres b rest eq_refl). lia. }
      destruct chunk1 as [|c rest1]; [by apply Hnext|].
      destruct (bool_decide (c = "-"%char)); [|by apply Hnext].
      destruct (getEsc rest1) as [[hi chunk2]|e] eqn:Hesc2; [|by eexists].
      apply getEsc_length in Hesc2. apply Hnext. simpl in *. lia. }
    split; [|done].
    intros chunk r matched nrange Hfuel. cbn [classRanges].
    assert (∃ res, classRange fuel chunk r matched nrange = Some res
                   ∧ ∀ b rest, res = Ok (b, rest) →
                               (length rest < length chunk)%nat) as Hstep
      by (apply IH2; lia).
    destruct chunk as [|c rest]; [done|].
    destruct nrange as [|nrange]; [done|].
    destruct (bool_decide (c = "]"%char)); [|done].
    eexists. split; [done|]. intros b rest' [= <- <-]. simpl. lia.
Qed.

Lemma matchChunkFrom_fuel fuel chunk s :
  (length chunk < fuel)%nat → ∃ res, matchChunkFrom fuel chunk s = Some res.
Proof.
  revert chunk s. induction fuel as [|fuel IH]; intros chunk s Hfuel; [lia|].
  cbn [matchChunkFrom]. destruct chunk as [|c chunk']; [destruct s; eauto|].
  simpl in Hfuel.
  destruct (bool_decide (c = "["%char)).
  - set (neg := match chunk' with
                | n :: chunk'' =>
                    if bool_decide (n = "^"%char) then (true, chunk'')
                    else (false, chunk')
                | [] => (false, chunk')
                end).
    assert (length (snd neg) ≤ length chunk')%nat as Hneg.
    { subst neg. destruct chunk' as [|n chunk'']; [done|].
      destruct (bool_decide (n = "^"%char)); simpl; lia. }
    destruct neg as [negated chunk1]. cbn [snd] in Hneg.
    match goal with
    | |- context [classRanges _ chunk1 ?r false 0%nat] =>
        destruct (proj1 (classRanges_fuel (2 * length chunk1 + 2))
                    chunk1 r false 0%nat) as (res & -> & Hres); [lia|]
    end.
    destruct res as [[matched chunk2]|e]; [|eauto].
    specialize (Hres matched chunk2 eq_refl). apply IH. lia.
  - destruct (bool_decide (c = "?"%char)); [apply IH; lia|].
    destruct (bool_decide (c = "\"%char)).
    + destruct chunk' as [|q chunk'']; [eauto|]. apply IH. simpl in Hfuel. lia.
    + apply IH. lia.
Qed.

Lemma dropStars_length p : (length (snd (dropStars p)) ≤ length p)%nat.
Proof.
  induction p as [|c p IH]; simpl; [done|].
  destruct (bool_decide (c = "*"%char)); simpl; lia.
Qed.

Lemma scanLiteral_length_le n :
  ∀ p inrange, (length p ≤ n)%nat →
    (length (snd (scanLiteral inrange p)) ≤ length p)%nat.
Proof.
  induction n as [|n IH]; intros p inrange Hn.
  - destruct p; [done|simpl in Hn; lia].
  - destruct p as [|c p]; [done|]. simpl in Hn. cbn [scanLiteral].
    assert (∀ b, length (snd (scanLiteral b p)) ≤ length p)%nat as Hp
      by (intros b; apply IH; lia).
    destruct (bool_decide (c = "\"%char)).
    { destruct p as [|d p']; [simpl; lia|]. cbn [snd length].
      pose proof (IH p' inrange) as H. simpl in Hn.
      specialize (H ltac:(lia)). lia. }
    pose proof (Hp true). pose proof (Hp false). pose proof (Hp inrange).
    repeat case_match; cbn [snd length]; lia.
Qed.

Lemma scanLiteral_length inrange p :
  (length (snd (scanLiteral inrange p)) ≤ length p)%nat.
Proof. by apply (scanLiteral_length_le (length p)). Qed.

Lemma scanChunk_length c p star chunk rest :
  scanChunk (c :: p) = (star, chunk, rest) →
  (length rest < length (c :: p))%nat.
Proof.
  unfold scanChunk. cbn [dropStars].
  destruct (bool_decide (c = "*"%char)) eqn:Hc.
  - pose proof (dropStars_length p) as Hd.
    destruct (scanLiteral false (snd (dropStars p))) as [chunk' rest'] eqn:Hs.
    pose proof (scanLiteral_length false (snd (dropStars p))) as Hl.
    rewrite Hs in Hl. intros [= <- <- <-]. simpl in *. lia.
  - apply bool_decide_eq_false in Hc.
    destruct (scanLiteral false (c :: p)) as [chunk' rest'] eqn:Hs.
    intros [= <- <- <-].
    cbn [scanLiteral] in Hs.
    rewrite (bool_decide_eq_false_2 (c = "*"%char)) in Hs by done.
    pose proof (scanLiteral_length true p) as H1.
    pose proof (scanLiteral_length false p) as H2.
    repeat case_match; simplify_eq/=; try lia.
    pose proof (scanLiteral_length false l) as H3. lia.
Qed.

Lemma MatchFrom_fuel fuel pattern name :
  (length pattern < fuel)%nat → ∃ res, MatchFrom fuel pattern name = Some res.
Proof.
  revert pattern name.
  induction fuel as [|fuel IH]; intros pattern name Hfuel; [lia|].
  cbn [MatchFrom]. destruct pattern as [|c p]; [eauto|].
  destruct (scanChunk (c :: p)) as [[star chunk] rest] eqn:Hscan.
  apply scanChunk_length in Hscan.
  assert (∀ t, ∃ res, MatchFrom fuel rest t = Some res) as Hrec
    by (intros t; apply IH; lia).
  assert (∃ res,
            (if star
             then match starSkip chunk rest name with
                  | Err e => Some (Err e)
                  | Ok (Some t) => MatchFrom fuel rest t
                  | Ok None => Some (Ok false)
                  end
             else Some (Ok false)) = Some res) as Hskip.
  { destruct star; [|eauto].
    destruct (starSkip chunk rest name) as [[t|]|e]; eauto. }
  destruct star, chunk as [|x chunk]; eauto;
    destruct (matchChunk _ name) as [t| |]; eauto;
    destruct t, rest; eauto.
Qed.

(** [filepath.Match] always answers: the fuel of [Match] is enough for
    every pattern and name. *)
Lemma Match_total pattern name :
  ∃ res, MatchFrom (S (length pattern)) pattern name = Some res
         ∧ Match pattern name = res.
Proof.
  destruct (MatchFrom_fuel (S (length pattern)) pattern name) as [res Hres];
    [lia|].
  exists res. split; [done|]. unfold Match. by rewrite Hres.
Qed.

(** [matchChunk] always answers as well. *)
Lemma matchChunk_total chunk s :
  ∃ res, matchChunkFrom (S (length chunk)) chunk (Some s) = Some res
         ∧ matchChunk chunk s = res.
Proof.
  destruct (matchChunkFrom_fuel (S (length chunk)) chunk (Some s)) as [res Hres];
    [lia|].
  exists res. split; [done|]. unfold matchChunk. by rewrite Hres.
Qed.

(** ** More on the path helpers *)

Lemma split_sep_snoc p : split_sep (p ++ [Separator]) = split_sep p ++ [[]].
Proof.
  induction p as [|c p IH]; [done|].
  cbn [app split_sep]. rewrite IH.
  destruct (is_sep c); [done|].
  pose proof (split_sep_nonempty p) as Hne.
  by destruct (split_sep p).
Qed.

Lemma clean_elems_snoc_empty rooted stack es :
  clean_elems rooted stack (es ++ [[]]) = clean_elems rooted stack es.
Proof.
  revert stack. induction es as [|e es IH]; intros stack; [done|].
  cbn [app clean_elems]. by repeat case_match.
Qed.

Lemma join_plain_prefix cs :
  Forall plain cs → HasPrefixSlash (join_sep cs) = false.
Proof.
  destruct cs as [|c cs]; [done|]. intros [Hc _]%Forall_cons.
  apply plain_head in Hc as (x & c' & -> & Hx).
  destruct (join_sep_head x c' cs) as [s ->]. done.
Qed.

(** X1.  [normalizePath] is idempotent, and the path it returns is a key
    of the archive: it neither starts nor ends with a slash, and it is
    made of elements that are not empty, not [.] and not [..], joined by
    single slashes. *)
Theorem normalizePath_key p :
  normalizePath (normalizePath p) = normalizePath p
  ∧ HasPrefixSlash (normalizePath p) = false
  ∧ HasSuffixSlash (normalizePath p) = false
  ∧ ∃ cs, Forall plain cs ∧ normalizePath p = join_sep cs.
Proof.
  pose proof (normalizePath_plain p) as Hcs.
  rewrite (normalizePath_elems p).
  set (cs := clean_elems true [] (split_sep p)) in *.
  split; [by apply normalizePath_join|].
  split; [by apply join_plain_prefix|].
  split; [|by exists cs].
  destruct cs as [|c cs]; [done|]. by apply join_plain_suffix.
Qed.

(** X2.  The path is read from the root of the archive and cannot leave
    it: leading slashes, [./] and [../] in any number change nothing, and
    neither does a trailing slash. *)
Theorem normalizePath_root pre p :
  Forall (λ e, e = [] ∨ e = dot ∨ e = dotdot) pre →
  normalizePath (join_sep (pre ++ [p])) = normalizePath p
  ∧ normalizePath (p ++ [Separator]) = normalizePath p.
Proof.
  intros Hpre. split.
  - induction pre as [|e pre IH]; [done|].
    apply Forall_cons in Hpre as [He Hpre].
    change ((e :: pre) ++ [p]) with (e :: (pre ++ [p])).
    destruct (pre ++ [p]) as [|e' rest] eqn:Heq; [by destruct pre|].
    rewrite join_sep_cons, <- (IH Hpre).
    by destruct He as [->|[->| ->]].
  - rewrite !normalizePath_elems.
    by rewrite split_sep_snoc, clean_elems_snoc_empty.
Qed.

Lemma normalizePath_root_witness :
  normalizePath (str "/../.././../a/b") = normalizePath (str "a/b")
  ∧ normalizePath (str "a/b/") = normalizePath (str "a/b").
Proof.
  apply (normalizePath_root [[]; dotdot; dotdot; dot; dotdot] (str "a/b")).
  repeat (apply Forall_cons_2; [by eauto|]). apply Forall_nil_2.
Defined.

(** X3.  [addTrailingSlash] is idempotent; it leaves the empty path empty
    and makes every other path end in a slash. *)
Theorem addTrailingSlash_idempotent p :
  addTrailingSlash (addTrailingSlash p) = addTrailingSlash p
  ∧ (p ≠ [] → HasSuffixSlash (addTrailingSlash p) = true)
  ∧ (addTrailingSlash p = [] ↔ p = []).
Proof.
  assert (HasSuffixSlash (p ++ [Separator]) = true) as Hsnoc
    by (by rewrite HasSuffixSlash_app).
  unfold addTrailingSlash. destruct p as [|c p]; [done|].
  destruct (HasSuffixSlash (c :: p)) eqn:Hs.
  - rewrite Hs. repeat split; done.
  - change ((c :: p) ++ [Separator]) with (c :: (p ++ [Separator])) in *.
    rewrite Hsnoc. repeat split; done.
Qed.

Lemma addTrailingSlash_idempotent_witness :
  HasSuffixSlash (addTrailingSlash (str "a/b")) = true.
Proof. by apply (addTrailingSlash_idempotent (str "a/b")). Defined.

(** ** What the operations leave alone *)

Example sample_fs_index :
  getIndex sample_fs = Ok sample_index ∧ rw sample_fs = Some sample_writer.
Proof. split; vm_compute; reflexivity. Qed.

Lemma ensureOpen_failure fs err :
  fst (ensureOpen fs) = Some err → ensureOpen fs = (Some err, fs).
Proof.
  unfold ensureOpen. repeat case_match; simpl; intros; by simplify_eq.
Qed.

(** X4.  The operations that only read never write to the archive and
    never touch the writer-busy flag: [Stat], [ReadDir], [MkdirAll] and
    an [OpenFile] without [O_CREATE] leave the filesystem as [ensureOpen]
    leaves it, and [Rename] leaves it as it is. *)
Theorem readers_keep_state p perm now flag mode from to fs :
  snd (Stat p fs) = snd (ensureOpen fs)
  ∧ snd (ReadDir p fs) = snd (ensureOpen fs)
  ∧ snd (MkdirAll p perm fs) = snd (ensureOpen fs)
  ∧ (has flag O_CREATE = false →
     snd (OpenFile now p flag mode fs) = snd (ensureOpen fs))
  ∧ Rename from to fs = (Some ErrNotSupported, fs).
Proof.
  repeat split.
  - unfold Stat. destruct (ensureOpen fs) as [[err|] fs']; [done|].
    by repeat case_match.
  - unfold ReadDir. destruct (ensureOpen fs) as [[err|] fs']; [done|].
    by repeat case_match.
  - unfold MkdirAll. destruct (ensureOpen fs) as [[err|] fs']; [done|].
    by repeat case_match.
  - intros Hc. unfold OpenFile. rewrite Hc. cbn [andb].
    destruct (ensureOpen fs) as [[err|] fs']; [done|].
    unfold openFile. by repeat case_match.
Qed.

Lemma readers_keep_state_witness :
  snd (OpenFile 2 (str "/x") O_RDONLY 0 sample_fs) = snd (ensureOpen sample_fs).
Proof.
  by apply (readers_keep_state (str "/x") 0 2 O_RDONLY 0 (str "x") (str "y")
              sample_fs).
Defined.

(** X5.  When the archive cannot be opened, every operation returns the
    error of [ensureOpen] and leaves the filesystem unopened and
    unchanged; only an [OpenFile] with [O_CREATE] and without [O_TRUNC]
    answers [ErrNotSupported] before it tries. *)
Theorem open_failure_propagates err fs p perm now flag mode :
  fst (ensureOpen fs) = Some err →
  rw fs = None
  ∧ Stat p fs = (Err err, fs)
  ∧ ReadDir p fs = (Err err, fs)
  ∧ MkdirAll p perm fs = (Some err, fs)
  ∧ Remove now p fs = (Some err, fs)
  ∧ OpenFile now p flag mode fs
    = (Err (if has flag O_CREATE && negb (has flag O_TRUNC)
            then ErrNotSupported else err), fs).
Proof.
  intros Hfail. split.
  { unfold ensureOpen in Hfail. by destruct (rw fs). }
  apply ensureOpen_failure in Hfail.
  unfold Stat, ReadDir, MkdirAll, Remove, OpenFile. rewrite Hfail.
  repeat split. by destruct (_ && _).
Qed.

Lemma open_failure_propagates_witness :
  let fs := New unopenable (str "archive.siva") in
  Stat (str "a") fs = (Err (IOError 2), fs)
  ∧ Remove 1 (str "a") fs = (Some (IOError 2), fs)
  ∧ OpenFile 1 (str "a") create_flags 438 fs = (Err (IOError 2), fs).
Proof.
  intros fs.
  pose proof (open_failure_propagates (IOError 2) fs (str "a") 0 1
                create_flags 438 eq_refl) as (_ & H1 & _ & _ & H2 & H3).
  split; [exact H1|]. split; [exact H2|exact H3].
Defined.

(** ** The session invariant *)

Lemma session_consistent_set_rw fs w w' :
  rw fs = Some w → session_consistent fs →
  session_consistent (set_rw fs (Some w')).
Proof.
  unfold session_consistent. intros Hw [_ H2]. simpl. split; [done|].
  intros Hf%H2. congruence.
Qed.

Lemma session_consistent_flag fs b :
  session_consistent fs → session_consistent (set_fileWriteModeOpen fs b).
Proof. done. Qed.

Lemma session_consistent_ensureOpen fs :
  session_consistent fs → session_consistent (snd (ensureOpen fs)).
Proof.
  intros Hfs. unfold ensureOpen. repeat case_match; simpl; try done.
Qed.

Lemma session_consistent_ensureClosed fs :
  session_consistent fs → session_consistent (snd (ensureClosed fs)).
Proof.
  intros Hfs. unfold ensureClosed.
  destruct (rw fs) as [w|] eqn:Hw; [|done].
  destruct (rw_Close (underlying fs) w) as [[[err|] w'] b]; simpl; [|done].
  unfold session_consistent in *. simpl. split; [done|].
  intros Hf. apply Hfs in Hf. congruence.
Qed.

Lemma session_consistent_closeFunc flag fs :
  session_consistent fs → session_consistent (snd (closeFunc flag fs)).
Proof.
  intros Hfs. unfold closeFunc. destruct (rw fs) as [w|] eqn:Hw; [|done].
  destruct (rw_Flush w) as [err w']. simpl.
  destruct (has flag O_WRONLY || has flag O_RDWR);
    by apply (session_consistent_set_rw _ w).
Qed.

Lemma session_consistent_createFile now p flag mode fs :
  session_consistent fs →
  session_consistent (snd (createFile now p flag mode fs)).
Proof.
  intros Hfs. unfold createFile.
  destruct (has flag O_RDWR || has flag O_RDONLY); [done|].
  destruct (rw fs) as [w|] eqn:Hw; [|done].
  destruct (rw_WriteHeader w _) as [[err|] w']; simpl.
  - by apply (session_consistent_set_rw _ w).
  - apply session_consistent_flag. by apply (session_consistent_set_rw _ w).
Qed.

Lemma session_consistent_Remove now p fs :
  session_consistent fs → session_consistent (snd (Remove now p fs)).
Proof.
  intros Hfs%session_consistent_ensureOpen. unfold Remove.
  destruct (ensureOpen fs) as [[err|] fs']; [done|]. simpl in Hfs.
  destruct (getIndex fs'); [|done].
  destruct (Find _ _).
  - destruct (rw fs') as [w|] eqn:Hw; [|done].
    destruct (rw_WriteHeader w _) as [err w']. simpl.
    by apply (session_consistent_set_rw _ w).
  - by repeat case_match.
Qed.

(** X6.  The archive file and its reader-writer are opened and released
    together: a new filesystem holds neither, and every operation keeps
    [fs.rw == nil] equivalent to [fs.f == nil], also when it fails. *)
Theorem session_consistent_kept b archivePath :
  session_consistent (New b archivePath)
  ∧ ∀ fs, session_consistent fs →
      ∀ now p flag mode perm,
        session_consistent (snd (ensureOpen fs))
        ∧ session_consistent (snd (Sync fs))
        ∧ session_consistent (snd (OpenFile now p flag mode fs))
        ∧ session_consistent (snd (closeFunc flag fs))
        ∧ session_consistent (snd (Stat p fs))
        ∧ session_consistent (snd (ReadDir p fs))
        ∧ session_consistent (snd (MkdirAll p perm fs))
        ∧ session_consistent (snd (Remove now p fs)).
Proof.
  split; [done|]. intros fs Hfs now p flag mode perm.
  pose proof (session_consistent_ensureOpen fs Hfs) as Hopen.
  split; [done|]. split; [by apply session_consistent_ensureClosed|].
  split.
  { unfold OpenFile. destruct (_ && _); [done|].
    destruct (ensureOpen fs) as [[err|] fs']; [done|]. simpl in Hopen.
    destruct (has flag O_CREATE).
    - destruct (fileWriteModeOpen fs'); [done|].
      by apply session_consistent_createFile.
    - unfold openFile. by repeat case_match. }
  split; [by apply session_consistent_closeFunc|].
  split.
  { unfold Stat. destruct (ensureOpen fs) as [[err|] fs']; [done|].
    by repeat case_match. }
  split.
  { unfold ReadDir. destruct (ensureOpen fs) as [[err|] fs']; [done|].
    by repeat case_match. }
  split.
  { unfold MkdirAll. destruct (ensureOpen fs) as [[err|] fs']; [done|].
    by repeat case_match. }
  by apply session_consistent_Remove.
Qed.

Lemma session_consistent_kept_witness :
  let fs := New (healthy [entry "a" 1]) (str "archive.siva") in
  session_consistent (snd (Sync (snd (Remove 2 (str "a") fs)))).
Proof.
  intros fs.
  destruct (session_consistent_kept (healthy [entry "a" 1]) (str "archive.siva"))
    as [Hnew Hkept].
  pose proof (Hkept fs Hnew 2 (str "a") 0 0 0) as (_ & _ & _ & _ & _ & _ & _ & Hrm).
  by pose proof (Hkept _ Hrm 2 (str "a") 0 0 0) as (_ & Hsync & _).
Defined.

(** ** Files and directories of one level *)

(** X7.  [listFiles] and [getDir] read the same level: for a normalized
    directory path without glob operators, [listFiles] returns the file
    infos of exactly the entries that are immediate children, in index
    order, and [getDir] finds no directory exactly when that list is
    empty. *)
Theorem getDir_listFiles_agree index d :
  normalized d → no_meta d →
  ∃ files,
    listFiles index d = Ok files
    ∧ (files = [] ↔ getDir index d = Ok None)
    ∧ files = newFileInfo <$> List.filter (λ e, child_b d (Name e)) index
    ∧ ∀ fi, In fi files
            ↔ ∃ e, fi = newFileInfo e ∧ In e index ∧ child_of d (Name e).
Proof.
  intros Hn Hm. exists (newFileInfo <$> children index d).
  split; [by apply listFiles_spec|]. split.
  { rewrite getDir_None, <- children_nil by done.
    destruct (children index d); simpl; split; congruence. }
  split; [done|]. intros fi. rewrite <- list_elem_of_In, list_elem_of_fmap.
  split.
  - intros (e & -> & He). exists e. split; [done|].
    by apply children_In, list_elem_of_In.
  - intros (e & -> & He). exists e. split; [done|].
    by apply list_elem_of_In, children_In.
Qed.

Lemma getDir_listFiles_agree_witness :
  ∃ files,
    listFiles sample_index (str "a") = Ok files
    ∧ (files = [] ↔ getDir sample_index (str "a") = Ok None)
    ∧ files = newFileInfo
                <$> List.filter (λ e, child_b (str "a") (Name e)) sample_index
    ∧ ∀ fi, In fi files
            ↔ ∃ e, fi = newFileInfo e ∧ In e sample_index
                   ∧ child_of (str "a") (Name e).
Proof. by apply (getDir_listFiles_agree sample_index (str "a")). Defined.

(** X8.  The modification time of a synthetic directory: [getDir] names
    the directory by its cleaned path and gives it a time that is no
    earlier than the zero time and than the time of any immediate child,
    and that is the zero time or the time of one of the children. *)
Theorem getDir_modTime index d name mt :
  normalized d → no_meta d →
  getDir index d = Ok (Some (newDirFileInfo name mt)) →
  name = Clean (addTrailingSlash d)
  ∧ (zeroTime <= mt)%Z
  ∧ (∀ e, In e index → child_of d (Name e) → (ModTime e <= mt)%Z)
  ∧ (mt = zeroTime ∨ ∃ e, In e index ∧ child_of d (Name e) ∧ ModTime e = mt).
Proof.
  intros Hn Hm. rewrite getDir_spec by done.
  pose proof (foldl_latest_spec (children index d) zeroTime) as Hs.
  pose proof (children_In index d) as Hin.
  destruct (children index d) as [|x es]; [done|].
  intros [= <- <-]. cbn [foldl] in Hs. destruct Hs as (H0 & Hall & Hatt).
  split; [done|]. split; [done|]. split.
  - intros e He Hc. apply Hall, Hin. done.
  - destruct Hatt as [->|(e & [He Hc]%Hin & Hmt)]; [by left|].
    right. by exists e.
Qed.

Lemma getDir_modTime_witness :
  str "a" = Clean (addTrailingSlash (str "a"))
  ∧ (zeroTime <= 7)%Z
  ∧ (∀ e, In e sample_index → child_of (str "a") (Name e) → (ModTime e <= 7)%Z)
  ∧ (7 = zeroTime
     ∨ ∃ e, In e sample_index ∧ child_of (str "a") (Name e) ∧ ModTime e = 7).
Proof.
  by apply (getDir_modTime sample_index (str "a") (str "a") 7).
Defined.

(** ** The filtered index as a map from names to entries *)

(** X9.  The filtered index maps each name to at most one entry: the
    entries [getIndex] returns are not tombstones, their names are
    pairwise distinct, and [Find] returns an entry exactly when it is the
    entry of that name. *)
Theorem getIndex_distinct fs index :
  getIndex fs = Ok index →
  (∀ e, In e index → deleted e = false)
  ∧ NoDup (Name <$> index)
  ∧ ∀ n e, Find index n = Some e ↔ In e index ∧ Name e = n.
Proof.
  intros (w & _ & _ & ->)%getIndex_Filter.
  assert (NoDup (Name <$> Filter (base w ++ written w))) as Hnd
    by apply Filter_NoDup.
  split.
  { intros e (_ & _ & _ & _ & _ & Hd)%Filter_In%filterSeen_In. done. }
  split; [done|]. intros n e. split; [apply Find_Some|].
  intros [He Hn]. by apply Find_NoDup.
Qed.

Lemma getIndex_distinct_witness :
  (∀ e, In e sample_index → deleted e = false)
  ∧ NoDup (Name <$> sample_index)
  ∧ ∀ n e, Find sample_index n = Some e ↔ In e sample_index ∧ Name e = n.
Proof. by apply (getIndex_distinct sample_fs sample_index). Defined.

(** ** Remove and Create, seen through the index *)

(** X10.  After [Remove] of an existing file the path is gone and nothing
    else is: the call succeeds, the filtered index afterwards holds
    exactly the former entries of other names, and [Open] of the path
    fails with [os.ErrNotExist]. *)
Theorem Remove_then_gone now p fs fs' index w e :
  ensureOpen fs = (None, fs') → getIndex fs' = Ok index →
  rw fs' = Some w → closed w = false →
  Find index (normalizePath p) = Some e →
  fst (Remove now p fs) = None
  ∧ ∃ index',
      getIndex (snd (Remove now p fs)) = Ok index'
      ∧ (∀ e', In e' index' ↔ In e' index ∧ Name e' ≠ normalizePath p)
      ∧ Find index' (normalizePath p) = None
      ∧ ∀ now', fst (Open now' p (snd (Remove now p fs))) = Err ErrNotExist.
Proof.
  intros Hopen Hindex Hrw Hclosed Hfind.
  unfold Remove. rewrite Hopen, Hindex, Hfind, Hrw.
  unfold rw_WriteHeader. rewrite Hclosed. cbn [fst snd]. split; [done|].
  apply getIndex_Filter in Hindex as (w0 & Hrw0 & Hfault & ->).
  assert (w0 = w) as -> by congruence.
  set (t := {| Name := normalizePath p; ModTime := now; Mode := 0;
               Flags := FlagDeleted |}).
  set (fs2 := set_rw fs' _).
  assert (getIndex fs2 = Ok (Filter ((base w ++ written w) ++ [t]))) as Hidx2.
  { unfold getIndex, rw_Index. subst fs2. cbn [rw underlying set_rw base written].
    by rewrite Hfault, app_assoc. }
  assert (∀ e', In e' (Filter ((base w ++ written w) ++ [t]))
              ↔ In e' (Filter (base w ++ written w))
                ∧ Name e' ≠ normalizePath p) as Hiff.
  { intros e'. by rewrite Filter_tombstone. }
  assert (Find (Filter ((base w ++ written w) ++ [t])) (normalizePath p)
          = None) as Hnone.
  { apply Find_None. intros e' He'. by apply Hiff in He' as [_ ?]. }
  eexists. split; [exact Hidx2|]. split; [exact Hiff|]. split; [exact Hnone|].
  intros now'. unfold Open, OpenFile. cbn [andb has].
  rewrite (ensureOpen_open fs2 _ eq_refl).
  change (has O_RDONLY O_CREATE) with false. cbn match.
  unfold openFile. change (has O_RDONLY O_RDWR || has O_RDONLY O_WRONLY)
    with false. cbn match.
  by rewrite Hidx2, Hnone.
Qed.

Lemma Remove_then_gone_witness :
  fst (Remove 9 (str "/a/b") sample_fs) = None
  ∧ ∃ index',
      getIndex (snd (Remove 9 (str "/a/b") sample_fs)) = Ok index'
      ∧ (∀ e', In e' index'
               ↔ In e' sample_index ∧ Name e' ≠ normalizePath (str "/a/b"))
      ∧ Find index' (normalizePath (str "/a/b")) = None
      ∧ ∀ now',
          fst (Open now' (str "/a/b") (snd (Remove 9 (str "/a/b") sample_fs)))
          = Err ErrNotExist.
Proof.
  by apply (Remove_then_gone 9 (str "/a/b") sample_fs sample_fs sample_index
              sample_writer (entry "a/b" 3)).
Defined.

(** X11.  [Create] truncates by replacing: afterwards the filtered index
    holds the new header and the former entries of other names, and
    nothing more, so that the entry of the path is the new header alone,
    whatever the archive held at that path before; [Stat] answers with
    it. *)
Theorem Create_replaces now p fs fs' index w :
  ensureOpen fs = (None, fs') → getIndex fs' = Ok index →
  rw fs' = Some w → closed w = false → fileWriteModeOpen fs' = false →
  ∃ index',
    getIndex (snd (Create now p fs)) = Ok index'
    ∧ (∀ e, In e index'
            ↔ e = createHeader now (normalizePath p) 438
              ∨ (In e index ∧ Name e ≠ normalizePath p))
    ∧ (∀ e, In e index' → Name e = normalizePath p →
            e = createHeader now (normalizePath p) 438)
    ∧ fst (Stat p (snd (Create now p fs)))
      = Ok (newFileInfo (createHeader now (normalizePath p) 438)).
Proof.
  intros Hopen Hindex Hrw Hclosed Hflag.
  set (h := createHeader now (normalizePath p) 438).
  assert (Create now p fs = Create now p fs') as ->.
  { unfold Create.
    apply (OpenFile_ensureOpen now p (Z.lor (Z.lor O_WRONLY O_CREATE) O_TRUNC)
             438 fs fs' Hopen eq_refl). }
  rewrite (Create_open now p fs' w Hrw Hclosed Hflag). cbn [snd]. fold h.
  set (fs2 := set_fileWriteModeOpen _ true).
  apply getIndex_Filter in Hindex as (w0 & Hrw0 & Hfault & ->).
  assert (w0 = w) as -> by congruence.
  assert (getIndex fs2 = Ok (Filter ((base w ++ written w) ++ [h]))) as Hidx2.
  { unfold getIndex, rw_Index. subst fs2.
    cbn [rw underlying set_rw set_fileWriteModeOpen appended base written].
    by rewrite Hfault, app_assoc. }
  assert (∀ e, In e (Filter ((base w ++ written w) ++ [h]))
             ↔ e = h ∨ (In e (Filter (base w ++ written w))
                        ∧ Name e ≠ normalizePath p)) as Hiff.
  { intros e. by rewrite Filter_append_iff. }
  eexists. split; [exact Hidx2|]. split; [exact Hiff|]. split.
  { intros e [->|[_ Hne]]%Hiff Hn; [done|by destruct Hne]. }
  unfold Stat. rewrite (ensureOpen_open fs2 _ eq_refl), Hidx2.
  rewrite (Find_NoDup _ (normalizePath p) h); [done| |by apply Hiff; left|done].
  apply Filter_NoDup.
Qed.

Lemma Create_replaces_witness :
  ∃ index',
    getIndex (snd (Create 9 (str "/a/b") sample_fs)) = Ok index'
    ∧ (∀ e, In e index'
            ↔ e = createHeader 9 (normalizePath (str "/a/b")) 438
              ∨ (In e sample_index ∧ Name e ≠ normalizePath (str "/a/b")))
    ∧ (∀ e, In e index' → Name e = normalizePath (str "/a/b") →
            e = createHeader 9 (normalizePath (str "/a/b")) 438)
    ∧ fst (Stat (str "/a/b") (snd (Create 9 (str "/a/b") sample_fs)))
      = Ok (newFileInfo (createHeader 9 (normalizePath (str "/a/b")) 438)).
Proof.
  by apply (Create_replaces 9 (str "/a/b") sample_fs sample_fs sample_index
              sample_writer).
Defined.

(** ** The writer-busy flag and the close function *)

(** X12.  [Sync] while a write handle is open locks write mode: [Sync]
    releases the reader-writer, the close function of the handle then
    returns nil at [fs.rw == nil] before it clears the flag, and every
    later [Create] that reopens the archive is turned down with
    [ErrFileWriteModeAlreadyOpen]. *)
Theorem Sync_before_close now p fs w :
  rw fs = Some w → closed w = false → fileWriteModeOpen fs = false →
  write_fault (underlying fs) = None →
  let fs2 := snd (Sync (snd (Create now p fs))) in
  rw fs2 = None
  ∧ closeFunc create_flags fs2 = (None, fs2)
  ∧ fileWriteModeOpen fs2 = true
  ∧ ∀ now' p', fst (ensureOpen fs2) = None →
               fst (Create now' p' fs2) = Err ErrFileWriteModeAlreadyOpen.
Proof.
  intros Hrw Hclosed Hflag Hwrite fs2. subst fs2.
  rewrite (Create_open now p fs w Hrw Hclosed Hflag). cbn [snd].
  unfold Sync, ensureClosed, rw_Close.
  cbn [rw underlying set_rw set_fileWriteModeOpen appended closed written].
  assert (∃ x l, written w ++ [createHeader now (normalizePath p) 438]
                 = x :: l) as (x & l & ->)
    by (destruct (written w); by eexists _, _).
  rewrite Hwrite. cbn [snd]. split; [done|]. split; [done|]. split; [done|].
  intros now' p'. set (fs2 := Build_sivaFS _ _ _ _ _). intros Hopen.
  unfold Create, OpenFile.
  change (has _ O_CREATE && negb (has _ O_TRUNC)) with false. cbn match.
  destruct (ensureOpen fs2) as [[err|] fs3] eqn:Hfs3; [done|].
  change (has _ O_CREATE) with true. cbn match.
  by rewrite (ensureOpen_flag _ _ _ Hfs3).
Qed.

Lemma Sync_before_close_witness :
  let fs2 := snd (Sync (snd (Create 9 (str "n") sample_fs))) in
  rw fs2 = None
  ∧ closeFunc create_flags fs2 = (None, fs2)
  ∧ fileWriteModeOpen fs2 = true
  ∧ ∀ now' p', fst (ensureOpen fs2) = None →
               fst (Create now' p' fs2) = Err ErrFileWriteModeAlreadyOpen.
Proof.
  by apply (Sync_before_close 9 (str "n") sample_fs sample_writer).
Defined.

(** X13.  The flag test of [createFile]: [flag&O_RDONLY != 0] never holds,
    so [createFile] turns down exactly the requests with [O_RDWR]; a
    request with neither [O_RDWR] nor [O_WRONLY] is accepted and sets the
    writer-busy flag, and the close function of its handle leaves the
    flag as it is. *)
Theorem createFile_flag_test now name flag mode fs w :
  rw fs = Some w → closed w = false →
  (fst (createFile now name flag mode fs) = Err ErrNotSupported
   ↔ has flag O_RDWR = true)
  ∧ (has flag O_RDWR = false → has flag O_WRONLY = false →
     createFile now name flag mode fs
     = (Ok {| Filename := name; kind := WriteHandle flag; isClosed := false |},
        set_fileWriteModeOpen
          (set_rw fs (Some (appended w (createHeader now name mode)))) true)
     ∧ ∀ fs1, fileWriteModeOpen (snd (closeFunc flag fs1))
              = fileWriteModeOpen fs1).
Proof.
  intros Hrw Hclosed. unfold createFile, rw_WriteHeader.
  rewrite has_RDONLY, orb_false_r, Hrw, Hclosed.
  destruct (has flag O_RDWR) eqn:Hrdwr; cbn match.
  - split; [done|]. by intros [=].
  - split; [split; by intros [=]|]. intros _ Hwr. split; [done|].
    intros fs1. unfold closeFunc. rewrite Hwr, Hrdwr. cbn [orb].
    destruct (rw fs1) as [w1|]; [|done]. by destruct (rw_Flush w1).
Qed.

Lemma createFile_flag_test_witness :
  let flag := Z.lor O_CREATE O_TRUNC in
  createFile 9 (str "n") flag 438 sample_fs
  = (Ok {| Filename := str "n"; kind := WriteHandle flag; isClosed := false |},
     set_fileWriteModeOpen
       (set_rw sample_fs
          (Some (appended sample_writer (createHeader 9 (str "n") 438)))) true)
  ∧ ∀ fs1, fileWriteModeOpen (snd (closeFunc flag fs1))
           = fileWriteModeOpen fs1.
Proof.
  intros flag.
  by apply (createFile_flag_test 9 (str "n") flag 438 sample_fs sample_writer).
Defined.

(** ** Paths that are read as patterns *)

Lemma plain_star : plain (str "*").
Proof. by repeat split. Qed.

Lemma normalized_nonempty cs :
  cs ≠ [] → Forall plain cs → join_sep cs ≠ [].
Proof.
  destruct cs as [|c cs]; [done|]. intros _ [Hc _]%Forall_cons.
  destruct (plain_head c Hc) as (x & c' & -> & _).
  by destruct (join_sep_head x c' cs) as [s ->].
Qed.

Lemma star_path d :
  normalized d →
  normalized (addTrailingSlash d ++ str "*")
  ∧ addTrailingSlash (addTrailingSlash d ++ str "*") ++ str "*"
    = addTrailingSlash d ++ str "*/*".
Proof.
  intros Hn. destruct (normalized_elems d Hn) as (cs & Hcs & ->).
  destruct cs as [|c cs]; [done|].
  assert (join_sep (c :: cs) ≠ []) as Hne by by apply normalized_nonempty.
  rewrite (addTrailingSlash_normalized _ Hn Hne).
  assert (normalized ((join_sep (c :: cs) ++ [Separator]) ++ str "*")) as Hs.
  { rewrite <- app_assoc. change ([Separator] ++ str "*")
      with (Separator :: join_sep [str "*"]).
    rewrite <- join_sep_app by done. apply normalizePath_join.
    apply Forall_app. split; [done|]. apply Forall_cons_2; [|apply Forall_nil_2].
    apply plain_star. }
  split; [done|].
  rewrite (addTrailingSlash_normalized _ Hs) by by destruct (join_sep (c :: cs)).
  by rewrite <- !app_assoc.
Qed.

(** X14.  A path is handed to [Glob] as it is, so an operator in it is
    read as one: when no entry is named [d/*], [Stat] of [d/*] answers
    from the entries two levels below [d], with a synthetic directory
    named [d/*] if there is one and with [os.ErrNotExist] otherwise,
    although no entry lies below a directory of that name. *)
Theorem Stat_star_pattern fs fs' index d :
  ensureOpen fs = (None, fs') → getIndex fs' = Ok index →
  normalized d → no_meta d →
  Find index (addTrailingSlash d ++ str "*") = None →
  Stat (addTrailingSlash d ++ str "*") fs
  = (match List.filter (λ e, grandchild_b d (Name e)) index with
     | [] => Err ErrNotExist
     | es => Ok (newDirFileInfo (addTrailingSlash d ++ str "*")
                                (foldl latest zeroTime es))
     end, fs').
Proof.
  intros Hopen Hindex Hn Hm Hfind.
  destruct (star_path d Hn) as [Hs Hpat].
  unfold Stat. rewrite Hs, Hopen, Hindex, Hfind.
  unfold getDir. rewrite (getDir_pattern _ Hs), Hpat.
  rewrite (Glob_grandchildren index d Hm). fold (grandchildren index d).
  destruct (grandchildren index d) as [|x es]; [done|].
  rewrite Clean_dir; [done..|]. by destruct (addTrailingSlash d).
Qed.

Lemma Stat_star_pattern_witness :
  Stat (str "*") sample_fs
  = (Ok (newDirFileInfo (str "*") 7), sample_fs).
Proof.
  by apply (Stat_star_pattern sample_fs sample_fs sample_index []).
Defined.

(** ** Directories are never stored *)

(** X15.  [MkdirAll] looks the name up as it is spelled and stores
    nothing: it fails with [ENOTDIR] exactly when an entry has that very
    name and returns nil exactly when none has, and since the names that
    this filesystem writes are normalized, a spelling that is not
    normalized is always accepted. *)
Theorem MkdirAll_exact_name filename perm fs fs' index :
  ensureOpen fs = (None, fs') → getIndex fs' = Ok index →
  (fst (MkdirAll filename perm fs)
   = Some (PathError "mkdir" filename ENOTDIR)
   ↔ ∃ e, In e index ∧ Name e = filename)
  ∧ (fst (MkdirAll filename perm fs) = None
     ↔ ∀ e, In e index → Name e ≠ filename)
  ∧ ((∀ e, In e index → normalized (Name e)) → ¬ normalized filename →
     MkdirAll filename perm fs = (None, fs')).
Proof.
  intros Hopen Hindex. unfold MkdirAll. rewrite Hopen, Hindex.
  destruct (Find index filename) as [e0|] eqn:Hfind; cbn [fst].
  - apply Find_Some in Hfind as [Hin Hname]. split; [|split].
    + split; [by exists e0|done].
    + split; [done|]. intros Hall. by destruct (Hall e0 Hin).
    + intros Hall Hnot. destruct Hnot. rewrite <- Hname. by apply Hall.
  - pose proof (proj1 (Find_None index filename) Hfind) as Hnone.
    split; [|split]; [|done..].
    split; [done|]. intros (e & Hin & Hname). by destruct (Hnone e Hin).
Qed.

Lemma MkdirAll_exact_name_witness :
  (fst (MkdirAll (str "a/b/") 493 sample_fs)
   = Some (PathError "mkdir" (str "a/b/") ENOTDIR)
   ↔ ∃ e, In e sample_index ∧ Name e = str "a/b/")
  ∧ (fst (MkdirAll (str "a/b/") 493 sample_fs) = None
     ↔ ∀ e, In e sample_index → Name e ≠ str "a/b/")
  ∧ ((∀ e, In e sample_index → normalized (Name e)) →
     ¬ normalized (str "a/b/") →
     MkdirAll (str "a/b/") 493 sample_fs = (None, sample_fs)).
Proof.
  by apply (MkdirAll_exact_name (str "a/b/") 493 sample_fs sample_fs
              sample_index).
Defined.

(** X16.  [Open] and [Stat] agree on what a file is: when reading an
    entry does not fail, [Open] returns a read handle on an entry exactly
    when [Stat] answers with the file info of that entry, and a path that
    [Stat] reports as a directory cannot be opened: [Open] fails with
    [os.ErrNotExist]. *)
Theorem Open_agrees_with_Stat now p fs fs' index :
  ensureOpen fs = (None, fs') → getIndex fs' = Ok index →
  get_fault (underlying fs') = None →
  (∀ e, fst (Stat p fs) = Ok (newFileInfo e)
        ↔ fst (Open now p fs)
          = Ok {| Filename := normalizePath p; kind := ReadHandle e;
                  isClosed := false |})
  ∧ (∀ name mt, fst (Stat p fs) = Ok (newDirFileInfo name mt) →
                fst (Open now p fs) = Err ErrNotExist)
  ∧ snd (Open now p fs) = fs'.
Proof.
  intros Hopen Hindex Hget. unfold Stat, Open, OpenFile.
  change (has O_RDONLY O_CREATE && negb (has O_RDONLY O_TRUNC)) with false.
  cbn match. rewrite Hopen.
  change (has O_RDONLY O_CREATE) with false. cbn match. unfold openFile.
  change (has O_RDONLY O_RDWR || has O_RDONLY O_WRONLY) with false.
  cbn match. rewrite Hindex.
  destruct (Find index (normalizePath p)) as [e0|]; [rewrite Hget|];
    cbn [fst snd].
  - split; [|done]. intros e. split; by intros [= ->].
  - split; [|split; [|done]].
    + intros e. split; [|done]. unfold getDir.
      by destruct (Glob index _) as [[|x l]|err].
    + intros name mt _. done.
Qed.

Lemma Open_agrees_with_Stat_witness :
  (∀ e, fst (Stat (str "/a/../x") sample_fs) = Ok (newFileInfo e)
        ↔ fst (Open 9 (str "/a/../x") sample_fs)
          = Ok {| Filename := normalizePath (str "/a/../x");
                  kind := ReadHandle e; isClosed := false |})
  ∧ (∀ name mt,
       fst (Stat (str "/a/../x") sample_fs) = Ok (newDirFileInfo name mt) →
       fst (Open 9 (str "/a/../x") sample_fs) = Err ErrNotExist)
  ∧ snd (Open 9 (str "/a/../x") sample_fs) = sample_fs.
Proof.
  by apply (Open_agrees_with_Stat 9 (str "/a/../x") sample_fs sample_fs
              sample_index).
Defined.

Lemma fmap_nil_iff {A B} (g : A → B) (l : list A) : g <$> l = [] ↔ l = [].
Proof. by destruct l. Qed.

Lemma noteDir_empty es : map_to_list (foldl noteDir ∅ es) = [] ↔ es = [].
Proof.
  rewrite map_to_list_empty_iff. split; [|by intros ->].
  intros Hempty. destruct es as [|x es]; [done|].
  destruct (noteDir_fold (x :: es) (Dir (Name x))) as [[Hnone _] _].
  rewrite Hempty, lookup_empty in Hnone.
  by destruct (Hnone eq_refl x (or_introl eq_refl)).
Qed.

(** X17.  [ReadDir] never reports a missing directory: for a path whose
    normalized form has no glob operators it succeeds, whether the path
    is a directory, a file or nothing at all, and the list is empty
    exactly when no entry lies one or two levels below the path. *)
Theorem ReadDir_never_not_found p fs fs' index :
  ensureOpen fs = (None, fs') → getIndex fs' = Ok index →
  no_meta (normalizePath p) →
  ∃ infos,
    ReadDir p fs = (Ok infos, fs')
    ∧ (infos = []
       ↔ ∀ e, In e index →
              ¬ child_of (normalizePath p) (Name e)
              ∧ ¬ grandchild_of (normalizePath p) (Name e)).
Proof.
  intros Hopen Hindex Hm. unfold ReadDir. rewrite Hopen, Hindex.
  rewrite (listFiles_spec _ _ Hm), (listDirs_spec _ _ Hm).
  eexists. split; [done|].
  rewrite app_nil, !fmap_nil_iff, noteDir_empty.
  split.
  - intros [Hg Hc] e He. split.
    + intros Hch. assert (In e (children index (normalizePath p))) as Hin
        by by apply children_In.
      by rewrite Hc in Hin.
    + intros Hgc. assert (In e (grandchildren index (normalizePath p))) as Hin
        by by apply grandchildren_In.
      by rewrite Hg in Hin.
  - intros Hall. split.
    + destruct (grandchildren index _) as [|x l] eqn:Hg; [done|].
      assert (In x (grandchildren index (normalizePath p))) as Hin
        by (rewrite Hg; by left).
      apply grandchildren_In in Hin as [Hin Hgc].
      by destruct (Hall x Hin) as [_ []].
    + destruct (children index _) as [|x l] eqn:Hc; [done|].
      assert (In x (children index (normalizePath p))) as Hin
        by (rewrite Hc; by left).
      apply children_In in Hin as [Hin Hch].
      by destruct (Hall x Hin) as [[] _].
Qed.

Lemma ReadDir_never_not_found_witness :
  ∃ infos,
    ReadDir (str "/x") sample_fs = (Ok infos, sample_fs)
    ∧ (infos = []
       ↔ ∀ e, In e sample_index →
              ¬ child_of (normalizePath (str "/x")) (Name e)
              ∧ ¬ grandchild_of (normalizePath (str "/x")) (Name e)).
Proof.
  by apply (ReadDir_never_not_found (str "/x") sample_fs sample_fs
              sample_index).
Defined.

(** X18.  The root is a directory only through its files: for a path
    that normalizes to the empty path, when no entry has the empty name,
    [Stat] answers from the entries without a slash in their name, with a
    synthetic directory named [.] if there is one and with
    [os.ErrNotExist] otherwise, as on an empty archive. *)
Theorem Stat_root p fs fs' index :
  ensureOpen fs = (None, fs') → getIndex fs' = Ok index →
  normalizePath p = [] → Find index [] = None →
  Stat p fs
  = (match List.filter (λ e, negb (contains_sep (Name e))) index with
     | [] => Err ErrNotExist
     | es => Ok (newDirFileInfo dot (foldl latest zeroTime es))
     end, fs')
  ∧ (index = [] → Stat p fs = (Err ErrNotExist, fs')).
Proof.
  intros Hopen Hindex Hp Hfind.
  assert (Stat p fs
          = (match children index [] with
             | [] => Err ErrNotExist
             | es => Ok (newDirFileInfo dot (foldl latest zeroTime es))
             end, fs')) as Hstat.
  { unfold Stat. rewrite Hp, Hopen, Hindex, Hfind.
    rewrite (getDir_spec index []) by done.
    by destruct (children index []). }
  split; [exact Hstat|]. intros ->. exact Hstat.
Qed.

Lemma Stat_root_witness :
  Stat (str "/..") sample_fs = (Ok (newDirFileInfo dot 1), sample_fs)
  ∧ (sample_index = [] →
     Stat (str "/..") sample_fs = (Err ErrNotExist, sample_fs)).
Proof.
  by apply (Stat_root (str "/..") sample_fs sample_fs sample_index).
Defined.

(** ** Remove and the writer-busy flag *)

Lemma ensureOpen_set_flag fs b :
  ensureOpen (set_fileWriteModeOpen fs b)
  = (fst (ensureOpen fs), set_fileWriteModeOpen (snd (ensureOpen fs)) b).
Proof.
  unfold ensureOpen. cbn [rw underlying path set_fileWriteModeOpen].
  by repeat case_match.
Qed.

(** X20.  [Remove] neither reads nor writes the writer-busy flag: with
    the flag set to any value it returns the same error and leaves the
    same filesystem, the flag apart, so a file can be removed while a
    write handle is open. *)
Theorem Remove_ignores_writer_busy now p fs b :
  Remove now p (set_fileWriteModeOpen fs b)
  = (fst (Remove now p fs), set_fileWriteModeOpen (snd (Remove now p fs)) b)
  ∧ fileWriteModeOpen (snd (Remove now p fs)) = fileWriteModeOpen fs.
Proof.
  split.
  - unfold Remove. rewrite ensureOpen_set_flag.
    destruct (ensureOpen fs) as [[err|] fs']; [done|]. cbn [fst snd].
    change (getIndex (set_fileWriteModeOpen fs' b)) with (getIndex fs').
    destruct (getIndex fs'); [|done].
    destruct (Find _ _).
    + cbn [rw set_fileWriteModeOpen].
      destruct (rw fs') as [w|]; [|done].
      by destruct (rw_WriteHeader w _).
    + by repeat case_match.
  - unfold Remove. destruct (ensureOpen fs) as [[err|] fs'] eqn:Hopen;
      rewrite <- (ensureOpen_flag _ _ _ Hopen); [done|].
    destruct (getIndex fs'); [|done].
    destruct (Find _ _).
    + destruct (rw fs') as [w|]; [|done].
      by destruct (rw_WriteHeader w _).
    + by repeat case_match.
Qed.

(** ** Joining a directory and an element *)

Lemma child_normalized d x :
  normalized d → plain x →
  normalized (addTrailingSlash d ++ x)
  ∧ ∃ ds, Forall plain ds ∧ d = join_sep ds
          ∧ addTrailingSlash d ++ x = join_sep (ds ++ [x]).
Proof.
  intros Hn Hx. destruct (normalized_elems d Hn) as (ds & Hds & ->).
  assert (Forall plain (ds ++ [x])) as Hall.
  { apply Forall_app. split; [done|]. by apply Forall_cons_2. }
  assert (addTrailingSlash (join_sep ds) ++ x = join_sep (ds ++ [x])) as ->.
  { destruct ds as [|c ds]; [done|].
    rewrite (addTrailingSlash_normalized _ Hn)
      by by apply normalized_nonempty.
    rewrite <- app_assoc. by rewrite join_sep_app. }
  split; [by apply normalizePath_join|]. by exists ds.
Qed.

(** X21.  [Join] of a directory key and one more element is the key of
    the child: for a normalized directory [d] and an element [x] that is
    not empty, [.] or [..] and has no slash, [Join(d, x)] is [d], a slash
    unless [d] is the root, and [x]; [normalizePath] leaves it as it is,
    and it is an immediate child of [d]. *)
Theorem Join_child d x :
  normalized d → plain x →
  Join [d; x] = addTrailingSlash d ++ x
  ∧ normalizePath (Join [d; x]) = Join [d; x]
  ∧ child_of d (Join [d; x]).
Proof.
  intros Hn Hx.
  destruct (child_normalized d x Hn Hx) as (Hnx & ds & Hds & -> & Hjoin).
  assert (Join [join_sep ds; x] = addTrailingSlash (join_sep ds) ++ x) as ->.
  { rewrite Hjoin. destruct (plain_head x Hx) as (c & x' & -> & _).
    destruct ds as [|e ds].
    - cbn [join_sep app Join].
      apply (Clean_relative (c :: x') [] []); [|done].
      by apply Forall_cons_2.
    - rewrite Join_nonempty by by apply normalized_nonempty.
      change (join_sep [join_sep (e :: ds); c :: x'])
        with (join_sep (e :: ds) ++ Separator :: join_sep [c :: x']).
      rewrite <- join_sep_app by done.
      assert (Forall plain (e :: (ds ++ [c :: x']))) as Hall.
      { apply (Forall_app plain (e :: ds)). split; [done|].
        by apply Forall_cons_2. }
      change ((e :: ds) ++ [c :: x']) with (e :: (ds ++ [c :: x'])).
      pose proof (Clean_relative e (ds ++ [c :: x']) [] Hall (Forall_nil_2 _))
        as HC.
      rewrite app_nil_r in HC. cbn [clean_elems] in HC.
      rewrite rev_involutive in HC. rewrite HC.
      apply Forall_cons in Hall as [He _].
      destruct (plain_head e He) as (c0 & e' & -> & _).
      by destruct (join_sep_head c0 e' (ds ++ [c :: x'])) as [s ->]. }
  split; [done|]. split; [done|].
  exists x. split; [done|]. by apply plain_sep_free.
Qed.

Lemma Join_child_witness :
  Join [str "a/b"; str "c"] = addTrailingSlash (str "a/b") ++ str "c"
  ∧ normalizePath (Join [str "a/b"; str "c"]) = Join [str "a/b"; str "c"]
  ∧ child_of (str "a/b") (Join [str "a/b"; str "c"]).
Proof. by apply (Join_child (str "a/b") (str "c")). Defined.

(** ** What ReadDir lists, Stat finds *)

Lemma split_sep_join_app es t :
  es ≠ [] → Forall (λ e, contains_sep e = false) es →
  split_sep (join_sep es ++ Separator :: t) = es ++ split_sep t.
Proof.
  induction es as [|e es IH]; [done|]. intros _ [He Hes]%Forall_cons.
  destruct es as [|e' es].
  - by apply split_sep_app.
  - rewrite join_sep_cons, <- app_assoc.
    change ((Separator :: join_sep (e' :: es)) ++ Separator :: t)
      with (Separator :: (join_sep (e' :: es) ++ Separator :: t)).
    rewrite (split_sep_app e _ He), IH; done.
Qed.

Lemma normalized_split s :
  normalized s → s ≠ [] → Forall plain (split_sep s).
Proof.
  intros (cs & Hcs & ->)%normalized_elems Hne.
  rewrite split_join; [done|by destruct cs|].
  eapply Forall_impl; [exact Hcs|]. apply plain_sep_free.
Qed.

Lemma grandchild_plain d x y :
  normalized d → contains_sep x = false →
  normalized (addTrailingSlash d ++ x ++ Separator :: y) → plain x.
Proof.
  intros Hn Hx Hname.
  apply normalized_split in Hname; [|by destruct (addTrailingSlash d), x].
  destruct (normalized_elems d Hn) as (ds & Hds & ->).
  destruct ds as [|c ds].
  - cbn [join_sep addTrailingSlash app] in Hname.
    rewrite (split_sep_app x y Hx) in Hname.
    by apply Forall_cons in Hname as [? _].
  - rewrite (addTrailingSlash_normalized _ Hn) in Hname
      by by apply normalized_nonempty.
    rewrite <- app_assoc in Hname.
    change ([Separator] ++ x ++ Separator :: y)
      with (Separator :: (x ++ Separator :: y)) in Hname.
    rewrite split_sep_join_app, (split_sep_app x y Hx) in Hname; [|done|].
    + apply Forall_app in Hname as [_ Hname].
      by apply Forall_cons in Hname as [? _].
    + eapply Forall_impl; [exact Hds|]. apply plain_sep_free.
Qed.

(** X22.  What [ReadDir] lists, [Stat] finds: when the names of the
    archive are normalized and free of glob operators, as the names this
    filesystem writes for such paths are, every file info that [ReadDir]
    returns for a directory names a path for which [Stat] succeeds with
    an info of the same name, and for a listed file [Stat] returns the
    very same info. *)
Theorem ReadDir_then_Stat fs fs' index d infos fi :
  ensureOpen fs = (None, fs') → getIndex fs' = Ok index →
  normalized d → no_meta d →
  Forall (λ e, normalized (Name e) ∧ no_meta (Name e)) index →
  fst (ReadDir d fs) = Ok infos → In fi infos →
  ∃ fi', fst (Stat (infoName fi) fs) = Ok fi'
         ∧ infoName fi' = infoName fi
         ∧ (IsDir fi = false → fi' = fi).
Proof.
  intros Hopen Hindex Hn Hm Hnames Hread Hfi.
  rewrite Forall_forall in Hnames.
  assert (NoDup (Name <$> index)) as Hnd.
  { apply getIndex_Filter in Hindex as (w & _ & _ & ->).
    apply Filter_NoDup. }
  assert (∀ n, normalized n →
            Stat n fs = (match Find index n with
                         | Some e => Ok (newFileInfo e)
                         | None =>
                             match getDir index n with
                             | Err err => Err err
                             | Ok None => Err ErrNotExist
                             | Ok (Some stat) => Ok stat
                             end
                         end, fs')) as Hstat.
  { intros n Hnn. unfold Stat. rewrite Hnn, Hopen, Hindex.
    by repeat case_match. }
  unfold ReadDir in Hread. rewrite Hn, Hopen, Hindex in Hread.
  rewrite (listFiles_spec _ _ Hm), (listDirs_spec _ _ Hm) in Hread.
  cbn [fst] in Hread. injection Hread as <-.
  apply in_app_or in Hfi as [Hdir|Hfile].
  - apply list_elem_of_In, list_elem_of_fmap in Hdir
      as ([n mt] & -> & Hlook%elem_of_map_to_list).
    apply noteDir_lookup in Hlook as [(e & He & Hdir & _) _].
    apply grandchildren_In in He as [He (x & y & Hname & Hx & Hy)].
    destruct (Hnames e) as [Hne Hme]; [by apply list_elem_of_In|].
    rewrite Hname in Hne, Hme, Hdir.
    assert (plain x) as Hpx by by apply (grandchild_plain d x y).
    rewrite (Dir_grandchild d x y Hn Hpx Hy) in Hdir. subst n.
    destruct (child_normalized d x Hn Hpx) as [Hnx _].
    assert (addTrailingSlash d ++ x ≠ []) as Hnonempty.
    { destruct (plain_head x Hpx) as (c & x' & -> & _).
      by destruct (addTrailingSlash d). }
    cbn [infoName IsDir]. rewrite (Hstat _ Hnx).
    destruct (Find index (addTrailingSlash d ++ x)) as [e'|] eqn:Hfind.
    { apply Find_Some in Hfind as [_ Hname']. by exists (newFileInfo e'). }
    assert (no_meta (addTrailingSlash d ++ x)) as Hmx.
    { apply no_meta_app in Hme as [Hd Hrest].
      apply no_meta_app in Hrest as [Hx' _]. by apply no_meta_app. }
    destruct (getDir_Some index (addTrailingSlash d ++ x) Hnx Hmx)
      as [mt' Hget].
    { exists e. split; [done|]. exists y. split; [|done].
      rewrite (addTrailingSlash_normalized _ Hnx Hnonempty), Hname.
      by rewrite <- !app_assoc. }
    rewrite Hget, (Clean_dir _ Hnx Hnonempty). cbn [fst].
    by eexists.
  - apply list_elem_of_In, list_elem_of_fmap in Hfile
      as (e & -> & [He _]%list_elem_of_In%children_In).
    destruct (Hnames e) as [Hne _]; [by apply list_elem_of_In|].
    cbn [infoName]. rewrite (Hstat _ Hne).
    rewrite (Find_NoDup index (Name e) e Hnd He eq_refl).
    by exists (newFileInfo e).
Qed.

Lemma ReadDir_then_Stat_witness :
  ∃ fi', fst (Stat (infoName (newDirFileInfo (str "a") 7)) sample_fs) = Ok fi'
         ∧ infoName fi' = infoName (newDirFileInfo (str "a") 7)
         ∧ (IsDir (newDirFileInfo (str "a") 7) = false →
            fi' = newDirFileInfo (str "a") 7).
Proof.
  apply (ReadDir_then_Stat sample_fs sample_fs sample_index []
           [newDirFileInfo (str "a") 7; newFileInfo (entry "x" 1)]);
    try done.
  - repeat (apply Forall_cons_2; [done|]). apply Forall_nil_2.
  - by left.
Defined.
